(** * lse/_lse.c: in-place sort and log-sum-exp over IEEE 754 doubles

    A shallow embedding of [rc_sort], [rc_logsumexp] and
    [rc_logsumexp_pair], and the properties of them that the
    specification states.

    - A [double] is a binary64 value, modelled by Rocq's executable
      specification of IEEE 754 arithmetic ([SpecFloat], precision 53,
      maximal exponent 1024): signed zeros, infinities, one NaN.  Sums
      and differences are rounded to binary64, to nearest, ties to even.
      The theorems hold for every value of that type, the binary64
      values among them, except where [binary64] is a hypothesis; the
      examples use binary64 values only.
    - A C [int] is a [Z] reduced to 32 bits (two's complement) after every
      operation.  ISO C leaves signed overflow undefined; every theorem
      on what the functions return is stated for arguments at which no
      operation wraps, and the examples on [INT_MAX] cells show where one
      does.
    - The array is the [mem] component of the machine state; a load or a
      store outside of it stops the run with [OutOfBounds].
    - [exp] and [log] come from the C library: they are parameters
      ([Libm]), and each call is recorded in the trace of the run, as is
      each array access.
    - Loops and the recursion of [rc_sort] are bounded by a [fuel]
      argument; the theorems show how much fuel is enough. *)

From Stdlib Require Import ZArith Lia Bool List.
From Stdlib Require Import Sorting.Sorted Sorting.Permutation.
From Stdlib Require Import Floats.SpecFloat.
From stdpp Require Import base tactics list sorting.

Local Open Scope Z_scope.

(** ** Doubles *)

Definition double : Type := spec_float.

Definition prec : Z := 53.
Definition emax : Z := 1024.

Definition dadd : double -> double -> double := SFadd prec emax.
Definition dsub : double -> double -> double := SFsub prec emax.

(** [x < y], [x > y] and [x == y] of C: all false as soon as one side is
    a NaN. *)
Definition dlt (x y : double) : bool := SFltb x y.
Definition dgt (x y : double) : bool :=
  match SFcompare x y with Some Gt => true | _ => false end.
Definition deq (x y : double) : bool := SFeqb x y.
Definition dle (x y : double) : bool := SFleb x y.

(** The literals of the source. *)
Definition zero : double := S754_zero false.                       (* 0.0 *)
Definition one : double := S754_finite false 4503599627370496 (-52). (* 1.0 *)
Definition infinity : double := S754_infinity false.               (* INFINITY *)
Definition neg_infinity : double := SFopp infinity.                (* -INFINITY *)

(** Further values used in examples. *)
Definition neg_zero : double := S754_zero true.
Definition nan : double := S754_nan.
Definition of_Z (z : Z) : double := binary_normalize prec emax z 0 false.

Definition is_nan (x : double) : bool :=
  match x with S754_nan => true | _ => false end.
Definition is_finite (x : double) : bool :=
  match x with S754_zero _ | S754_finite _ _ _ => true | _ => false end.

(** ** C ints *)

Definition int_min : Z := - 2 ^ 31.
Definition int_max : Z := 2 ^ 31 - 1.
Definition int_wrap (z : Z) : Z := (z + 2 ^ 31) mod 2 ^ 32 - 2 ^ 31.
Definition int_add (a b : Z) : Z := int_wrap (a + b).
Definition int_sub (a b : Z) : Z := int_wrap (a - b).

(** ** The C library *)

Class Libm : Type := { exp : double -> double; log : double -> double }.

(** ** Machine state, runs and their outcome *)

Inductive event : Type :=
| Read (i : Z)
| Write (i : Z)
| CallExp (x : double)
| CallLog (x : double).

(** The newest event is at the head of [trace]. *)
Record state : Type := mkState { mem : list double; trace : list event }.

Inductive outcome (A : Type) : Type :=
| Ok (a : A) (st : state)
| OutOfBounds (i : Z)
| OutOfFuel.
Arguments Ok {A} a st.
Arguments OutOfBounds {A} i.
Arguments OutOfFuel {A}.

Definition M (A : Type) : Type := state -> outcome A.

Definition ret {A} (a : A) : M A := fun st => Ok a st.
Definition bind {A B} (c : M A) (k : A -> M B) : M B :=
  fun st =>
    match c st with
    | Ok a st' => k a st'
    | OutOfBounds i => OutOfBounds i
    | OutOfFuel => OutOfFuel
    end.
Definition out_of_fuel {A} : M A := fun _ => OutOfFuel.

Notation "x <- c ;; k" := (bind c (fun x => k))
  (at level 100, c at next level, right associativity).
Notation "c ;;; k" := (bind c (fun _ => k))
  (at level 100, right associativity).

Definition in_bounds (a : list double) (i : Z) : bool :=
  (0 <=? i) && (i <? Z.of_nat (length a)).

Definition get (a : list double) (i : Z) : double :=
  match a !! Z.to_nat i with Some x => x | None => nan end.
Definition set (a : list double) (i : Z) (v : double) : list double :=
  <[Z.to_nat i := v]> a.

Definition log_event (e : event) (st : state) : state :=
  {| mem := mem st; trace := e :: trace st |}.

(** [array[i]] read. *)
Definition load (i : Z) : M double :=
  fun st =>
    if in_bounds (mem st) i then Ok (get (mem st) i) (log_event (Read i) st)
    else OutOfBounds i.

(** [array[i] = v]. *)
Definition store (i : Z) (v : double) : M unit :=
  fun st =>
    if in_bounds (mem st) i
    then Ok tt {| mem := set (mem st) i v; trace := Write i :: trace st |}
    else OutOfBounds i.

Definition call_exp `{Libm} (x : double) : M double :=
  fun st => Ok (exp x) (log_event (CallExp x) st).
Definition call_log `{Libm} (x : double) : M double :=
  fun st => Ok (log x) (log_event (CallLog x) st).

(** ** rc_sort *)

(** [while(array[++l] < array[R]);] *)
Fixpoint scan_left (fuel : nat) (l R : Z) : M Z :=
  match fuel with
  | O => out_of_fuel
  | S fuel =>
      let l := int_add l 1 in
      x <- load l ;; p <- load R ;;
      if dlt x p then scan_left fuel l R else ret l
  end.

(** [while((array[--r] > array[R]) && (r > l));] *)
Fixpoint scan_right (fuel : nat) (r l R : Z) : M Z :=
  match fuel with
  | O => out_of_fuel
  | S fuel =>
      let r := int_sub r 1 in
      x <- load r ;; p <- load R ;;
      if dgt x p && (r >? l) then scan_right fuel r l R else ret r
  end.

(** The [for(;;)] loop of the quicksort branch; it returns the left
    cursor at the [break]. *)
Fixpoint partition_loop (fuel : nat) (l r R : Z) : M Z :=
  match fuel with
  | O => out_of_fuel
  | S fuel =>
      l <- scan_left fuel l R ;;
      r <- scan_right fuel r l R ;;
      if l >=? r then ret l
      else
        swap <- load l ;;
        x <- load r ;; store l x ;;;
        store r swap ;;;
        partition_loop fuel l r R
  end.

(** Lines 23 to 36: the cursors start at [L - 1] and [R]; after the loop
    the left cursor's element and the pivot at [R] are exchanged. *)
Definition rc_partition (fuel : nat) (L R : Z) : M Z :=
  l <- partition_loop fuel (int_sub L 1) R R ;;
  swap <- load l ;;
  x <- load R ;; store l x ;;;
  store R swap ;;;
  ret l.

(** [for(r=l-1; (r >= L) && (swap < array[r]); --r) array[r + 1] = array[r];]
    It returns the final [r]. *)
Fixpoint shift_loop (fuel : nat) (swap : double) (r L : Z) : M Z :=
  match fuel with
  | O => out_of_fuel
  | S fuel =>
      if r >=? L then
        x <- load r ;;
        if dlt swap x then
          y <- load r ;; store (int_add r 1) y ;;;
          shift_loop fuel swap (int_sub r 1) L
        else ret r
      else ret r
  end.

(** [for(l=L+1; l<=R; ++l) { ... }], entered with the current [l]. *)
Fixpoint insertion_loop (fuel : nat) (l L R : Z) : M unit :=
  match fuel with
  | O => out_of_fuel
  | S fuel =>
      if l <=? R then
        swap <- load l ;;
        r <- shift_loop fuel swap (int_sub l 1) L ;;
        store (int_add r 1) swap ;;;
        insertion_loop fuel (int_add l 1) L R
      else ret tt
  end.

Fixpoint rc_sort (fuel : nat) (L R : Z) : M unit :=
  match fuel with
  | O => out_of_fuel
  | S fuel =>
      if int_sub R L >? 25 then
        l <- rc_partition fuel L R ;;
        rc_sort fuel L (int_sub l 1) ;;;
        rc_sort fuel (int_add l 1) R
      else insertion_loop fuel (int_add L 1) L R
  end.

(** ** rc_logsumexp and rc_logsumexp_pair *)

Section LogSumExp.
Context `{Libm}.

(** [for(i=0; i<length-1; ++i) sum += exp(array[i] - array[length - 1]);]
    entered with the current [i] and [sum]. *)
Fixpoint sum_loop (fuel : nat) (i length : Z) (sum : double) : M double :=
  match fuel with
  | O => out_of_fuel
  | S fuel =>
      if i <? int_sub length 1 then
        x <- load i ;;
        mx <- load (int_sub length 1) ;;
        e <- call_exp (dsub x mx) ;;
        sum_loop fuel (int_add i 1) length (dadd sum e)
      else ret sum
  end.

Definition rc_logsumexp (fuel : nat) (length : Z) : M double :=
  let sum := zero in
  rc_sort fuel 0 (int_sub length 1) ;;;
  x <- load (int_sub length 1) ;;
  if deq neg_infinity x then ret neg_infinity
  else
    sum <- sum_loop fuel 0 length sum ;;
    mx <- load (int_sub length 1) ;;
    lg <- call_log (dadd sum one) ;;
    ret (dadd mx lg).

Definition rc_logsumexp_pair (a b : double) : M double :=
  if deq neg_infinity a && deq neg_infinity b then ret neg_infinity
  else if dgt b a then
    e <- call_exp (dsub a b) ;;
    lg <- call_log (dadd one e) ;;
    ret (dadd b lg)
  else
    e <- call_exp (dsub b a) ;;
    lg <- call_log (dadd one e) ;;
    ret (dadd a lg).
End LogSumExp.

(** * The vocabulary of the specifications *)

(** ** The order of doubles *)

(** Doubles other than NaN are ordered as their keys are, lexicographically:
    the class (-inf, negative, zero, positive, +inf), then exponent and
    mantissa as [SFcompare] looks at them. *)
Definition key (x : double) : Z * Z * Z :=
  match x with
  | S754_nan => (0, 0, 0)
  | S754_zero _ => (0, 0, 0)
  | S754_infinity true => (-2, 0, 0)
  | S754_infinity false => (2, 0, 0)
  | S754_finite false m e => (1, e, Z.pos m)
  | S754_finite true m e => (-1, - e, Z.neg m)
  end.

Definition kcmp (a b : Z * Z * Z) : comparison :=
  let '(a1, a2, a3) := a in
  let '(b1, b2, b3) := b in
  match a1 ?= b1 with
  | Eq => match a2 ?= b2 with Eq => a3 ?= b3 | c => c end
  | c => c
  end.

(** [x] and [y] are the same double, or two zeros.  For doubles other than
    NaN, this is [x == y] (lemma [deq_same] below). *)
Definition same_up_to_zero_sign (x y : double) : Prop :=
  x = y \/ exists s s', x = S754_zero s /\ y = S754_zero s'.

(** The representative of a double among those that compare equal to it. *)
Definition canon (x : double) : double :=
  match x with S754_zero _ => zero | _ => x end.

Definition no_nan (l : list double) : Prop :=
  Forall (fun x => is_nan x = false) l.

(** A double that binary64 holds: the mantissa and the exponent of a
    finite one are in canonical form. *)
Definition binary64 (x : double) : bool := valid_binary prec emax x.

(** Non-decreasing order: every element is [<=] every later one. *)
Abbreviation sorted := (StronglySorted (fun x y => dle x y = true)).

(** ** Arrays and their ranges *)

Abbreviation len a := (Z.of_nat (length a)).

(** [swap = array[i]; array[i] = array[j]; array[j] = swap;] *)
Definition swap_cells (a : list double) (i j : Z) : list double :=
  set (set a i (get a j)) j (get a i).

(** The cells from [i] to [j - 1]. *)
Definition range (a : list double) (i j : Z) : list double :=
  take (Z.to_nat (j - i)) (drop (Z.to_nat i) a).

(** An array of [INT_MAX] cells: zeros, and [1.0] in the last cell. *)
Definition int_max_array : list double :=
  replicate (Z.to_nat (int_max - 1)) zero ++ [one].

(** ** Runs *)

(** Running from a fresh state. *)
Definition init (a : list double) : state := {| mem := a; trace := [] |}.

Definition value {A} (o : outcome A) : option A :=
  match o with Ok a _ => Some a | _ => None end.
Definition final_mem {A} (o : outcome A) : option (list double) :=
  match o with Ok _ st => Some (mem st) | _ => None end.

(** [run_to c st Q]: from [st] the computation [c] ends without fault, in
    a result and a state that satisfy [Q]. *)
Definition run_to {A} (c : M A) (st : state) (Q : A -> state -> Prop) : Prop :=
  exists a st', c st = Ok a st' /\ Q a st'.

(** ** Traces *)

(** An access to a cell of an array of [n] cells. *)
Definition array_access (n : Z) (e : event) : Prop :=
  match e with
  | Read i | Write i => 0 <= i < n
  | CallExp _ | CallLog _ => False
  end.

(** An access within an array of [n] cells, or a call of the C library. *)
Definition within (n : Z) (e : event) : Prop :=
  match e with
  | Read i | Write i => 0 <= i < n
  | CallExp _ | CallLog _ => True
  end.

(** From [st] to [st'] the run added the events [evs], all of them in [P]. *)
Definition steps (P : event -> Prop) (st st' : state) : Prop :=
  exists evs, trace st' = evs ++ trace st /\ Forall P evs.

(** What every part of [rc_sort] keeps: the length of the array, and a
    trace of accesses within the array only. *)
Definition sort_steps (st st' : state) : Prop :=
  length (mem st') = length (mem st) /\
  steps (array_access (len (mem st))) st st'.

(** An access to one of the cells [lo] to [hi]. *)
Definition range_access (lo hi : Z) (e : event) : Prop :=
  match e with
  | Read i | Write i => lo <= i <= hi
  | CallExp _ | CallLog _ => False
  end.

(** What [rc_sort] on the range from [lo] to [hi] keeps: the length of the
    array, and a trace of accesses to the cells [lo] to [hi] only. *)
Definition range_steps (lo hi : Z) (st st' : state) : Prop :=
  length (mem st') = length (mem st) /\
  steps (range_access lo hi) st st'.

(** The calls of the C library in a trace, in the order they were made
    (a trace has its latest event first). *)
Definition is_call (e : event) : bool :=
  match e with CallExp _ | CallLog _ => true | Read _ | Write _ => false end.

Definition calls (t : list event) : list event :=
  reverse (List.filter is_call t).

(** ** Insertion sort on lists *)

(** [x] put at the end of a list, then moved to the left past the elements
    greater than it; the list is given from right to left. *)
Fixpoint insert_from_right (x : double) (r : list double) : list double :=
  match r with
  | y :: r' => if dlt x y then y :: insert_from_right x r' else x :: r
  | [] => [x]
  end.

Definition insert (x : double) (s : list double) : list double :=
  reverse (insert_from_right x (reverse s)).

Definition insertion_sort (l : list double) : list double :=
  fold_left (fun acc x => insert x acc) l [].

(** ** The partition loop *)

(** The state of the array between two rounds of the [for(;;)] loop, in
    terms of the array [a0] at the start: the cells from [L] to the left
    cursor hold nothing greater than the pivot, those from the right cursor
    to [R - 1] nothing less. *)
Record part_inv (a0 : list double) (L R : Z) (a : list double) (l r : Z) : Prop :=
  { inv_length : length a = length a0;
    inv_perm : a ≡ₚ a0;
    inv_take : take (Z.to_nat L) a = take (Z.to_nat L) a0;
    inv_drop : drop (Z.to_nat R) a = drop (Z.to_nat R) a0;
    inv_pivot : get a R = get a0 R;
    inv_cursors : L - 1 <= l /\ l < r /\ r <= R /\ L < r;
    inv_left : forall i, L <= i <= l -> dlt (get a0 R) (get a i) = false;
    inv_right : forall i, r <= i < R -> dlt (get a i) (get a0 R) = false }.

(** The array at the [break], with the left cursor [l]. *)
Record part_post (a0 : list double) (L R : Z) (a : list double) (l : Z) : Prop :=
  { post_length : length a = length a0;
    post_perm : a ≡ₚ a0;
    post_take : take (Z.to_nat L) a = take (Z.to_nat L) a0;
    post_drop : drop (Z.to_nat R) a = drop (Z.to_nat R) a0;
    post_pivot : get a R = get a0 R;
    post_cursor : L <= l <= R;
    post_left : forall i, L <= i < l -> dlt (get a0 R) (get a i) = false;
    post_right : forall i, l <= i < R -> dlt (get a i) (get a0 R) = false }.

(** ** The value of rc_logsumexp *)

(** One round of the summation: [sum += exp(x - mx)]. *)
Definition lse_add `{Libm} (mx sum x : double) : double :=
  dadd sum (exp (dsub x mx)).

(** [mx + log(sum + 1.0)], where [sum] adds [exp(x - mx)] for the [x] of
    [s] in their order, from [0.0]. *)
Definition lse_value `{Libm} (s : list double) (mx : double) : double :=
  dadd mx (log (dadd (fold_left (lse_add mx) s zero) one)).

(** ** What is assumed of the C library *)

(** ISO C, Annex F: [exp(-inf)] is [+0], [exp(+-0)] is [1], [log(1)] is
    [+0]; and no result of [exp] or [log] is a negative zero ([exp] is
    positive, and [log] vanishes at 1 only). *)
Record annex_f (lm : Libm) : Prop :=
  { exp_neg_infinity : exp neg_infinity = zero;
    exp_zero : forall s, exp (S754_zero s) = one;
    log_one : log one = zero;
    exp_not_neg_zero : forall x, exp x <> neg_zero;
    log_not_neg_zero : forall x, log x <> neg_zero }.

(** A stand-in C library, to run the functions on examples: it has the
    values above, and is coarse everywhere else. *)
Definition coarse_exp (x : double) : double :=
  match x with
  | S754_nan => nan
  | S754_infinity true => zero
  | S754_infinity false => infinity
  | S754_zero _ => one
  | S754_finite true _ _ => S754_finite false 4503599627370496 (-53)
  | S754_finite false _ _ => S754_finite false 4503599627370496 (-51)
  end.

Definition coarse_log (x : double) : double :=
  match x with
  | S754_nan | S754_infinity true | S754_finite true _ _ => nan
  | S754_infinity false => infinity
  | S754_zero _ => neg_infinity
  | S754_finite false _ _ =>
      if deq x one then zero
      else if dlt x one then S754_finite true 4503599627370496 (-52)
      else one
  end.

Definition coarse_libm : Libm := {| exp := coarse_exp; log := coarse_log |}.

(** * Properties *)

(** ** The order of doubles *)

Lemma SFcompare_key (x y : double) :
  is_nan x = false -> is_nan y = false ->
  SFcompare x y = Some (kcmp (key x) (key y)).
Proof.
  destruct x as [sx|sx| |sx mx ex], y as [sy|sy| |sy my ey];
    intros Hx Hy; try discriminate; clear Hx Hy;
    try (destruct sx); try (destruct sy); try reflexivity.
  cbn [SFcompare key kcmp]. rewrite Z.compare_opp.
  rewrite (Z.compare_antisym ey ex).
  destruct (ey ?= ex); reflexivity.
Qed.

Lemma kcmp_Lt_trans a b c : kcmp a b = Lt -> kcmp b c = Lt -> kcmp a c = Lt.
Proof.
  destruct a as [[a1 a2] a3], b as [[b1 b2] b3], c as [[c1 c2] c3].
  unfold kcmp.
  destruct (Z.compare_spec a1 b1), (Z.compare_spec b1 c1),
    (Z.compare_spec a1 c1); try discriminate; try lia; try reflexivity;
  destruct (Z.compare_spec a2 b2), (Z.compare_spec b2 c2),
    (Z.compare_spec a2 c2); try discriminate; try lia; try reflexivity;
  rewrite ?Z.compare_lt_iff; lia.
Qed.

Lemma kcmp_antisym a b : kcmp b a = CompOpp (kcmp a b).
Proof.
  destruct a as [[a1 a2] a3], b as [[b1 b2] b3]. unfold kcmp.
  rewrite (Z.compare_antisym a1 b1), (Z.compare_antisym a2 b2),
    (Z.compare_antisym a3 b3).
  destruct (a1 ?= b1), (a2 ?= b2); reflexivity.
Qed.

Lemma kcmp_Eq a b : kcmp a b = Eq -> a = b.
Proof.
  destruct a as [[a1 a2] a3], b as [[b1 b2] b3]. unfold kcmp.
  destruct (Z.compare_spec a1 b1), (Z.compare_spec a2 b2),
    (Z.compare_spec a3 b3); try discriminate; intros _; congruence.
Qed.

Lemma kcmp_refl a : kcmp a a = Eq.
Proof.
  destruct a as [[a1 a2] a3]. unfold kcmp. by rewrite !Z.compare_refl.
Qed.

Lemma dlt_not_nan x y : dlt x y = true -> is_nan x = false /\ is_nan y = false.
Proof. by destruct x, y. Qed.

Lemma dle_not_nan x y : dle x y = true -> is_nan x = false /\ is_nan y = false.
Proof. by destruct x, y. Qed.

Lemma dlt_key x y :
  is_nan x = false -> is_nan y = false ->
  dlt x y = match kcmp (key x) (key y) with Lt => true | _ => false end.
Proof. intros Hx Hy. unfold dlt, SFltb. by rewrite SFcompare_key. Qed.

Lemma dle_key x y :
  is_nan x = false -> is_nan y = false ->
  dle x y = match kcmp (key x) (key y) with Gt => false | _ => true end.
Proof.
  intros Hx Hy. unfold dle, SFleb. rewrite SFcompare_key by done.
  by destruct (kcmp _ _).
Qed.

Lemma dgt_dlt x y : dgt x y = dlt y x.
Proof.
  destruct (is_nan x) eqn:Hx; [by destruct x, y|].
  destruct (is_nan y) eqn:Hy; [by destruct x, y|].
  unfold dgt. rewrite SFcompare_key, dlt_key by done.
  rewrite (kcmp_antisym (key x) (key y)). by destruct (kcmp _ _).
Qed.

Lemma dlt_irrefl x : dlt x x = false.
Proof.
  destruct (is_nan x) eqn:Hx; [by destruct x|].
  by rewrite dlt_key, kcmp_refl.
Qed.

Lemma dlt_asym x y : dlt x y = true -> dlt y x = false.
Proof.
  intros H. destruct (dlt_not_nan _ _ H) as [Hx Hy]. revert H.
  rewrite !dlt_key, (kcmp_antisym (key x) (key y)) by done.
  by destruct (kcmp _ _).
Qed.

Lemma dlt_dle x y : dlt x y = true -> dle x y = true.
Proof.
  intros H. destruct (dlt_not_nan _ _ H) as [Hx Hy]. revert H.
  rewrite dlt_key, dle_key by done. by destruct (kcmp _ _).
Qed.

Lemma dle_not_dlt x y : dle x y = true -> dlt y x = false.
Proof.
  intros H. destruct (dle_not_nan _ _ H) as [Hx Hy]. revert H.
  rewrite dlt_key, dle_key, (kcmp_antisym (key x) (key y)) by done.
  by destruct (kcmp _ _).
Qed.

(** Without NaN the order is total. *)
Lemma not_dlt_dle x y :
  is_nan x = false -> is_nan y = false -> dlt x y = false -> dle y x = true.
Proof.
  intros Hx Hy. rewrite dlt_key, dle_key, (kcmp_antisym (key x) (key y)) by done.
  by destruct (kcmp _ _).
Qed.

Lemma dle_refl x : is_nan x = false -> dle x x = true.
Proof. intros Hx. by rewrite dle_key, kcmp_refl. Qed.

Lemma dle_trans x y z : dle x y = true -> dle y z = true -> dle x z = true.
Proof.
  intros Hxy Hyz.
  destruct (dle_not_nan _ _ Hxy) as [Hx Hy], (dle_not_nan _ _ Hyz) as [_ Hz].
  revert Hxy Hyz. rewrite !dle_key by done.
  destruct (kcmp (key x) (key z)) eqn:Hxz; try done.
  destruct (kcmp (key x) (key y)) eqn:Hxy; try done;
    destruct (kcmp (key y) (key z)) eqn:Hyz; try done; intros _ _.
  - apply kcmp_Eq in Hxy, Hyz. rewrite Hxy, Hyz, kcmp_refl in Hxz. done.
  - apply kcmp_Eq in Hxy. rewrite Hxy in Hxz. congruence.
  - apply kcmp_Eq in Hyz. rewrite <- Hyz in Hxz. congruence.
  - rewrite (kcmp_Lt_trans _ _ _ Hxy Hyz) in Hxz. done.
Qed.

Lemma key_inj x y :
  is_nan x = false -> is_nan y = false -> key x = key y ->
  same_up_to_zero_sign x y.
Proof.
  unfold same_up_to_zero_sign.
  destruct x as [sx|sx| |sx mx ex], y as [sy|sy| |sy my ey];
    intros Hx Hy; try discriminate; clear Hx Hy;
    try (destruct sx); try (destruct sy); cbn [key];
    intros [= ]; subst; eauto.
  left. f_equal. lia.
Qed.

Lemma dle_antisym x y :
  dle x y = true -> dle y x = true -> same_up_to_zero_sign x y.
Proof.
  intros Hxy Hyx. destruct (dle_not_nan _ _ Hxy) as [Hx Hy].
  apply key_inj; try done. revert Hxy Hyx.
  rewrite !dle_key, (kcmp_antisym (key x) (key y)) by done.
  destruct (kcmp (key x) (key y)) eqn:E; try done.
  intros _ _. by apply kcmp_Eq.
Qed.

Lemma deq_same x y :
  is_nan x = false -> is_nan y = false ->
  deq x y = true <-> same_up_to_zero_sign x y.
Proof.
  intros Hx Hy. unfold deq, SFeqb. rewrite SFcompare_key by done. split.
  - destruct (kcmp (key x) (key y)) eqn:E; try discriminate.
    intros _. by apply key_inj, kcmp_Eq.
  - intros [->|(s & s' & -> & ->)]; [by rewrite kcmp_refl | done].
Qed.

(** ** Ints that do not wrap *)

Lemma int_wrap_id z : int_min <= z <= int_max -> int_wrap z = z.
Proof.
  unfold int_min, int_max, int_wrap. intros Hz.
  rewrite Z.mod_small; lia.
Qed.

(** ** Arrays *)

Lemma in_bounds_true a i : 0 <= i < len a -> in_bounds a i = true.
Proof. unfold in_bounds. lia. Qed.

Lemma in_bounds_false a i : ~ 0 <= i < len a -> in_bounds a i = false.
Proof. unfold in_bounds. lia. Qed.

Lemma lookup_get a i : 0 <= i < len a -> a !! Z.to_nat i = Some (get a i).
Proof.
  intros Hi. unfold get.
  destruct (lookup_lt_is_Some_2 a (Z.to_nat i)) as [x ->]; [lia|done].
Qed.

Lemma length_set a i v : length (set a i v) = length a.
Proof. apply length_insert. Qed.

Lemma get_set_eq a i v : 0 <= i < len a -> get (set a i v) i = v.
Proof.
  intros Hi. unfold get, set. by rewrite list_lookup_insert_eq by lia.
Qed.

Lemma get_set_ne a i j v : 0 <= i -> 0 <= j -> i <> j -> get (set a i v) j = get a j.
Proof.
  intros Hi Hj Hij. unfold get, set. by rewrite list_lookup_insert_ne by lia.
Qed.

Lemma get_middle l1 x l2 i : i = len l1 -> get (l1 ++ x :: l2) i = x.
Proof.
  intros ->. unfold get. by rewrite Nat2Z.id, list_lookup_middle.
Qed.

Lemma set_middle l1 x l2 i v :
  i = len l1 -> set (l1 ++ x :: l2) i v = l1 ++ v :: l2.
Proof.
  intros ->. unfold set. rewrite Nat2Z.id.
  by rewrite insert_app_r_alt, Nat.sub_diag by lia.
Qed.

(** Exchanging two cells permutes the array. *)
Lemma swap_Permutation a i j :
  0 <= i < len a -> 0 <= j < len a ->
  set (set a i (get a j)) j (get a i) ≡ₚ a.
Proof.
  intros Hi Hj. unfold set.
  apply Permutation_insert_swap; by apply lookup_get.
Qed.

(** ** Runs *)

Lemma run_ret {A} (a : A) st (Q : A -> state -> Prop) :
  Q a st -> run_to (ret a) st Q.
Proof. intros HQ. by exists a, st. Qed.

Lemma run_bind {A B} (c : M A) (k : A -> M B) st (Q : B -> state -> Prop) :
  run_to c st (fun a st' => run_to (k a) st' Q) -> run_to (bind c k) st Q.
Proof.
  intros (a & st' & Hc & b & st'' & Hk & HQ).
  exists b, st''. unfold bind. by rewrite Hc.
Qed.

Lemma run_weaken {A} (c : M A) st (Q Q' : A -> state -> Prop) :
  run_to c st Q -> (forall a st', Q a st' -> Q' a st') -> run_to c st Q'.
Proof. intros (a & st' & Hc & HQ) HQQ'. exists a, st'. eauto. Qed.

Lemma run_load i st (Q : double -> state -> Prop) :
  0 <= i < len (mem st) ->
  Q (get (mem st) i) (log_event (Read i) st) ->
  run_to (load i) st Q.
Proof.
  intros Hi HQ. eexists _, _. split; [|exact HQ].
  unfold load. by rewrite in_bounds_true.
Qed.

Lemma run_store i v st (Q : unit -> state -> Prop) :
  0 <= i < len (mem st) ->
  Q tt {| mem := set (mem st) i v; trace := Write i :: trace st |} ->
  run_to (store i v) st Q.
Proof.
  intros Hi HQ. eexists _, _. split; [|exact HQ].
  unfold store. by rewrite in_bounds_true.
Qed.

(** ** Traces *)

Lemma steps_refl P st : steps P st st.
Proof. by exists []. Qed.

Lemma steps_trans P st1 st2 st3 :
  steps P st1 st2 -> steps P st2 st3 -> steps P st1 st3.
Proof.
  intros (e1 & H1 & HP1) (e2 & H2 & HP2). exists (e2 ++ e1).
  split; [by rewrite H2, H1, app_assoc | by apply Forall_app].
Qed.

Lemma steps_event P st st' e m :
  steps P st st' -> P e -> steps P st {| mem := m; trace := e :: trace st' |}.
Proof.
  intros (evs & H1 & HP) He. exists (e :: evs).
  split; [by simpl; rewrite H1 | by constructor].
Qed.

Lemma steps_log P st st' e :
  steps P st st' -> P e -> steps P st (log_event e st').
Proof. apply steps_event. Qed.

Lemma steps_impl (P P' : event -> Prop) st st' :
  (forall e, P e -> P' e) -> steps P st st' -> steps P' st st'.
Proof.
  intros HPP' (evs & H1 & HP). exists evs. split; [done|].
  eapply Forall_impl; eauto.
Qed.

Lemma range_steps_refl lo hi st : range_steps lo hi st st.
Proof. split; [done | apply steps_refl]. Qed.

Lemma range_steps_trans lo hi st1 st2 st3 :
  range_steps lo hi st1 st2 -> range_steps lo hi st2 st3 ->
  range_steps lo hi st1 st3.
Proof.
  intros [L1 S1] [L2 S2]. split; [congruence|]. eapply steps_trans; done.
Qed.

Lemma range_steps_read lo hi st st' i :
  range_steps lo hi st st' -> lo <= i <= hi ->
  range_steps lo hi st (log_event (Read i) st').
Proof. intros [L1 S1] Hi. split; [done|]. by apply steps_log. Qed.

Lemma range_steps_write lo hi st st' i v :
  range_steps lo hi st st' -> lo <= i <= hi ->
  range_steps lo hi st
    {| mem := set (mem st') i v; trace := Write i :: trace st' |}.
Proof.
  intros [L1 S1] Hi. split; [by simpl; rewrite length_set|].
  by apply steps_event.
Qed.

Lemma range_steps_mono lo hi lo' hi' st st' :
  lo' <= lo -> hi <= hi' -> range_steps lo hi st st' ->
  range_steps lo' hi' st st'.
Proof.
  intros Hlo Hhi [L1 S1]. split; [done|].
  eapply steps_impl; [|exact S1]. intros [i|i|x|x]; cbn; lia.
Qed.

Lemma range_steps_sort lo hi st st' :
  0 <= lo -> hi < len (mem st) -> range_steps lo hi st st' ->
  sort_steps st st'.
Proof.
  intros Hlo Hhi [L1 S1]. split; [done|].
  eapply steps_impl; [|exact S1]. intros [i|i|x|x]; cbn; lia.
Qed.

(** ** The insertion branch *)

Ltac list_len :=
  repeat (rewrite ?length_app, ?length_set in *;
          cbn [length mem trace log_event] in * );
  unfold int_min, int_max in *; lia.

Ltac unwrap :=
  unfold int_add, int_sub; rewrite ?int_wrap_id by list_len.

Lemma geb_true a b : b <= a -> (a >=? b) = true.
Proof. intros. destruct (Z.geb_spec a b); [done | lia]. Qed.
Lemma geb_false a b : a < b -> (a >=? b) = false.
Proof. intros. destruct (Z.geb_spec a b); [lia | done]. Qed.
Lemma gtb_true a b : b < a -> (a >? b) = true.
Proof. intros. destruct (Z.gtb_spec a b); [done | lia]. Qed.
Lemma gtb_false a b : a <= b -> (a >? b) = false.
Proof. intros. destruct (Z.gtb_spec a b); [lia | done]. Qed.
Lemma leb_true a b : a <= b -> (a <=? b) = true.
Proof. intros. destruct (Z.leb_spec a b); [done | lia]. Qed.
Lemma leb_false a b : b < a -> (a <=? b) = false.
Proof. intros. destruct (Z.leb_spec a b); [lia | done]. Qed.
Lemma ltb_true a b : a < b -> (a <? b) = true.
Proof. intros. destruct (Z.ltb_spec a b); [done | lia]. Qed.
Lemma ltb_false a b : b <= a -> (a <? b) = false.
Proof. intros. destruct (Z.ltb_spec a b); [lia | done]. Qed.

Lemma list_snoc_case {A} (l : list A) : l = [] \/ exists l' x, l = l' ++ [x].
Proof. destruct l using rev_ind; eauto. Qed.

(** The inner loop moves the hole at [r + 1] to the left, past the
    elements greater than [swap]. *)
Lemma shift_loop_spec swap pre lo hi fuel : forall s1 g tl st,
  mem st = pre ++ s1 ++ g :: tl ->
  hi < int_max ->
  lo <= len pre -> len pre + len s1 <= hi ->
  (length s1 < fuel)%nat ->
  run_to (shift_loop fuel swap (len pre + len s1 - 1) (len pre)) st
    (fun r st' => exists s1a s1b g',
        s1 = s1a ++ s1b /\
        mem st' = pre ++ s1a ++ g' :: s1b ++ tl /\
        r = len pre + len s1a - 1 /\
        Forall (fun y => dlt swap y = true) s1b /\
        (forall y, last s1a = Some y -> dlt swap y = false) /\
        range_steps lo hi st st').
Proof.
  induction fuel as [|fuel IH]; intros s1 g tl st Hmem Hmax Hlo Hhi Hfuel;
    [lia|].
  cbn [shift_loop].
  destruct (list_snoc_case s1) as [->|(s1' & x & ->)].
  - rewrite geb_false by list_len.
    apply run_ret. exists [], [], g. cbn [length app].
    split_and!; auto using range_steps_refl. intros y [=].
  - pose proof Hmem as Hlen. apply (f_equal length) in Hlen.
    rewrite length_app in Hfuel. cbn [length] in Hfuel.
    rewrite geb_true by list_len.
    assert (Hx : get (mem st) (len pre + len (s1' ++ [x]) - 1) = x).
    { rewrite Hmem.
      replace (pre ++ (s1' ++ [x]) ++ g :: tl)
        with ((pre ++ s1') ++ x :: g :: tl) by (by rewrite <- !app_assoc).
      apply get_middle. list_len. }
    apply run_bind, run_load; [list_len|]. rewrite Hx.
    destruct (dlt swap x) eqn:Hlt.
    + apply run_bind, run_load; [list_len|]. cbn [mem log_event]. rewrite Hx.
      apply run_bind. unwrap.
      apply run_store; [list_len|]. cbn [mem log_event trace].
      match goal with |- run_to _ ?s _ => set (st1 := s) end.
      assert (Hmem1 : mem st1 = pre ++ s1' ++ x :: x :: tl).
      { subst st1. cbn [mem]. rewrite Hmem.
        replace (pre ++ (s1' ++ [x]) ++ g :: tl)
          with ((pre ++ s1' ++ [x]) ++ g :: tl) by (by rewrite <- !app_assoc).
        rewrite set_middle by list_len. by rewrite <- !app_assoc. }
      assert (Hst1 : range_steps lo hi st st1).
      { subst st1.
        apply (range_steps_write lo hi st (log_event _ (log_event _ st)));
          [|list_len].
        apply range_steps_read; [|list_len].
        apply range_steps_read; [apply range_steps_refl | list_len]. }
      replace (len pre + len (s1' ++ [x]) - 1 - 1) with (len pre + len s1' - 1)
        by list_len.
      eapply run_weaken.
      { apply (IH s1' x (x :: tl) st1 Hmem1); [done|lia|list_len|lia]. }
      intros r st' (s1a & s1b & g' & -> & Hm' & -> & Hall & Hlast & Hst').
      exists s1a, (s1b ++ [x]), g'. split_and!.
      * by rewrite <- app_assoc.
      * rewrite Hm'. by rewrite <- !app_assoc.
      * done.
      * apply Forall_app_2; [done|]. by constructor.
      * done.
      * eapply range_steps_trans; eauto.
    + apply run_ret. exists (s1' ++ [x]), [], g. split_and!.
      * by rewrite app_nil_r.
      * cbn [mem log_event]. by rewrite Hmem.
      * done.
      * constructor.
      * intros y. rewrite last_snoc. by intros [= <-].
      * apply range_steps_read; [apply range_steps_refl | list_len].
Qed.

(** What the inner loop leaves, once [x] is stored in the hole, is [x]
    inserted from the right. *)
Lemma insert_from_right_app x rb ra :
  Forall (fun y => dlt x y = true) rb ->
  insert_from_right x (rb ++ ra) = rb ++ insert_from_right x ra.
Proof.
  induction 1 as [|y rb Hy _ IH]; [done|].
  cbn [app insert_from_right]. by rewrite Hy, IH.
Qed.

Lemma insert_split x s1a s1b :
  Forall (fun y => dlt x y = true) s1b ->
  (forall y, last s1a = Some y -> dlt x y = false) ->
  insert x (s1a ++ s1b) = s1a ++ x :: s1b.
Proof.
  intros Hgt Hlast. unfold insert.
  rewrite reverse_app, insert_from_right_app by (by apply Forall_reverse).
  assert (Hra : insert_from_right x (reverse s1a) = x :: reverse s1a).
  { destruct (list_snoc_case s1a) as [->|(s' & y & ->)]; [done|].
    rewrite reverse_snoc. cbn [insert_from_right].
    by rewrite (Hlast y) by apply last_snoc. }
  rewrite Hra, reverse_app, reverse_cons, !reverse_involutive.
  by rewrite <- app_assoc.
Qed.

Lemma sorted_insert x s1a s1b :
  is_nan x = false -> no_nan s1a ->
  sorted (s1a ++ s1b) ->
  Forall (fun y => dlt x y = true) s1b ->
  (forall y, last s1a = Some y -> dlt x y = false) ->
  sorted (s1a ++ x :: s1b).
Proof.
  intros Hx Hnan Hsorted Hgt Hlast.
  apply StronglySorted_app in Hsorted as (Hab & Ha & Hb).
  apply StronglySorted_app_2; [|done|].
  - intros x1 x2 H1 H2.
    assert (H1x : dle x1 x = true).
    { destruct (list_snoc_case s1a) as [->|(s' & y & ->)]; [by inv H1|].
      assert (Hyx : dle y x = true).
      { apply not_dlt_dle; [done| |by apply Hlast, last_snoc].
        unfold no_nan in Hnan. rewrite Forall_forall in Hnan.
        apply Hnan, elem_of_app. right. by apply list_elem_of_singleton. }
      apply elem_of_app in H1 as [H1|H1].
      - eapply dle_trans; [|exact Hyx].
        apply (StronglySorted_app_1_elem_of _ _ _ _ _ Ha H1).
        by apply list_elem_of_singleton.
      - apply list_elem_of_singleton in H1 as ->. done. }
    apply elem_of_cons in H2 as [->|H2]; [done|]. by apply Hab.
  - apply StronglySorted_cons. split; [|done].
    eapply Forall_impl; [exact Hgt|]. intros y. apply dlt_dle.
Qed.

(** The elements that the inner loop passed are none when [x] is not less
    than any element of [s1a ++ s1b]. *)
Lemma shifted_none x (s1a s1b : list double) :
  Forall (fun y => dlt x y = true) s1b ->
  Forall (fun y => dle y x = true) (s1a ++ s1b) ->
  s1b = [].
Proof.
  intros Hgt Hle. destruct s1b as [|y s1b]; [done|].
  apply Forall_app in Hle as [_ Hle].
  apply Forall_cons in Hgt as [Hgt _], Hle as [Hle _].
  apply dle_not_dlt in Hle. congruence.
Qed.

Lemma insertion_loop_spec pre post lo hi fuel : forall rest srt st,
  mem st = pre ++ srt ++ rest ++ post ->
  hi < int_max ->
  lo <= len pre -> len pre + len srt + len rest - 1 <= hi ->
  (length srt + 2 * length rest < fuel)%nat ->
  run_to (insertion_loop fuel (len pre + len srt) (len pre)
            (len pre + len srt + len rest - 1)) st
    (fun _ st' => exists srt',
        mem st' = pre ++ srt' ++ post /\
        srt' ≡ₚ srt ++ rest /\
        (no_nan (srt ++ rest) -> sorted srt -> sorted srt') /\
        (sorted (srt ++ rest) -> srt' = srt ++ rest) /\
        srt' = fold_left (fun acc y => insert y acc) rest srt /\
        range_steps lo hi st st').
Proof.
  induction fuel as [|fuel IH]; intros rest srt st Hmem Hmax Hlo Hhi Hfuel;
    [lia|].
  cbn [insertion_loop].
  pose proof Hmem as Hlen. apply (f_equal length) in Hlen.
  destruct rest as [|x rest].
  - rewrite leb_false by list_len.
    apply run_ret. exists srt. rewrite app_nil_r.
    split_and!; auto using range_steps_refl.
  - rewrite leb_true by list_len.
    assert (Hx : get (mem st) (len pre + len srt) = x).
    { rewrite Hmem, app_assoc. apply get_middle. list_len. }
    apply run_bind, run_load; [list_len|]. rewrite Hx.
    apply run_bind. unwrap.
    eapply run_weaken.
    { apply (shift_loop_spec x pre lo hi fuel srt x (rest ++ post));
        [done|done|lia|list_len|list_len]. }
    cbn beta.
    intros r st1 (s1a & s1b & g' & -> & Hmem1 & -> & Hgt & Hlast & Hst1).
    pose proof Hmem1 as Hlen1. apply (f_equal length) in Hlen1.
    assert (Hlen01 : length (mem st1) = length (mem st)) by apply Hst1.
    apply run_bind. unwrap. apply run_store; [list_len|].
    match goal with |- run_to _ ?s _ => set (st2 := s) end.
    assert (Hmem2 : mem st2 = pre ++ (s1a ++ x :: s1b) ++ rest ++ post).
    { subst st2. cbn [mem]. rewrite Hmem1, app_assoc.
      rewrite set_middle by list_len. by rewrite <- !app_assoc. }
    assert (Hst2 : range_steps lo hi st st2).
    { apply (range_steps_trans lo hi _
               (log_event (Read (len pre + len (s1a ++ s1b))) st)).
      - apply range_steps_read; [apply range_steps_refl | list_len].
      - eapply range_steps_trans; [exact Hst1|].
        subst st2. apply range_steps_write; [apply range_steps_refl | list_len]. }
    replace (len pre + len (s1a ++ s1b) + 1)
      with (len pre + len (s1a ++ x :: s1b)) by list_len.
    replace (len pre + len (s1a ++ s1b) + len (x :: rest) - 1)
      with (len pre + len (s1a ++ x :: s1b) + len rest - 1) by list_len.
    eapply run_weaken.
    { apply (IH rest (s1a ++ x :: s1b) st2 Hmem2); [done|lia|list_len|list_len]. }
    cbn beta.
    intros _ st' (srt' & Hmem' & Hperm & Hsorted & Hsame & Hins & Hst').
    exists srt'. split_and!.
    + done.
    + rewrite Hperm, <- !app_assoc. cbn [app].
      by rewrite <- (Permutation_middle s1b rest x).
    + intros Hnan Hsrt. apply Hsorted.
      * unfold no_nan in *. revert Hnan.
        rewrite <- !app_assoc. cbn [app]. rewrite !Forall_app, !Forall_cons, !Forall_app.
        tauto.
      * unfold no_nan in Hnan.
        rewrite Forall_app, Forall_app, Forall_cons in Hnan.
        apply sorted_insert; try done; tauto.
    + intros Hsrt.
      assert (s1b = []) as ->.
      { apply (shifted_none x s1a); [done|].
        apply StronglySorted_app in Hsrt as (Hle & _ & _).
        apply Forall_forall. intros y Hy. apply Hle; [done | by left]. }
      rewrite app_nil_r in *. rewrite Hsame.
      * by rewrite <- app_assoc.
      * by rewrite <- app_assoc.
    + cbn [fold_left]. by rewrite insert_split.
    + eapply range_steps_trans; eauto.
Qed.

(** ** The quicksort branch *)

Lemma scan_left_spec R lo hi fuel : forall l st,
  -1 <= l < R -> R < len (mem st) -> hi < int_max ->
  lo <= l + 1 -> R <= hi ->
  (Z.to_nat (R - l) <= fuel)%nat ->
  run_to (scan_left fuel l R) st
    (fun l' st' =>
       mem st' = mem st /\ l < l' <= R /\
       dlt (get (mem st) l') (get (mem st) R) = false /\
       (forall i, l < i < l' -> dlt (get (mem st) i) (get (mem st) R) = true) /\
       range_steps lo hi st st').
Proof.
  induction fuel as [|fuel IH]; intros l st Hl HR Hmax Hlo Hhi Hfuel; [lia|].
  cbn [scan_left]. unwrap.
  apply run_bind, run_load; [lia|].
  apply run_bind, run_load; [list_len|]. cbn [mem log_event].
  match goal with |- run_to _ ?s _ => set (st1 := s) end.
  assert (Hst1 : range_steps lo hi st st1).
  { subst st1. apply range_steps_read; [|lia].
    apply range_steps_read; [apply range_steps_refl | lia]. }
  destruct (dlt (get (mem st) (l + 1)) (get (mem st) R)) eqn:Hlt.
  - assert (l + 1 <> R) by (intros E; rewrite E, dlt_irrefl in Hlt; done).
    eapply run_weaken; [apply (IH (l + 1) st1); subst st1; list_len|].
    cbn beta. intros l' st' (Hmem & Hl' & Hstop & Hpassed & Hst').
    change (mem st1) with (mem st) in *.
    split_and!; try done; try lia.
    + intros i Hi. destruct (decide (i = l + 1)) as [->|]; [done|].
      apply Hpassed. lia.
    + eapply range_steps_trans; eauto.
  - apply run_ret. split_and!; try done; try lia.
Qed.

Lemma scan_right_spec l R lo hi fuel : forall r st,
  1 <= r <= len (mem st) -> 0 <= l -> 0 <= R < len (mem st) ->
  hi < int_max ->
  lo <= l -> lo <= r - 1 -> r - 1 <= hi -> lo <= R <= hi ->
  (1 <= fuel)%nat -> (Z.to_nat (r - l) <= fuel)%nat ->
  run_to (scan_right fuel r l R) st
    (fun r' st' =>
       mem st' = mem st /\ r' < r /\ (l <= r' \/ r' = r - 1) /\
       (dlt (get (mem st) R) (get (mem st) r') = false \/ r' <= l) /\
       (forall i, r' < i < r -> dlt (get (mem st) R) (get (mem st) i) = true) /\
       range_steps lo hi st st').
Proof.
  induction fuel as [|fuel IH];
    intros r st Hr Hl HR Hmax Hlo1 Hlo2 Hhi1 Hhi2 Hfuel1 Hfuel; [lia|].
  cbn [scan_right]. unwrap.
  apply run_bind, run_load; [lia|].
  apply run_bind, run_load; [list_len|]. cbn [mem log_event].
  match goal with |- run_to _ ?s _ => set (st1 := s) end.
  assert (Hst1 : range_steps lo hi st st1).
  { subst st1. apply range_steps_read; [|lia].
    apply range_steps_read; [apply range_steps_refl | lia]. }
  rewrite dgt_dlt.
  destruct (dlt (get (mem st) R) (get (mem st) (r - 1))) eqn:Hgt;
    destruct (Z.gtb_spec (r - 1) l) as [Hrl|Hrl]; cbn [andb].
  - eapply run_weaken; [apply (IH (r - 1) st1); subst st1; list_len|].
    cbn beta. intros r' st' (Hmem & Hr' & Hlow & Hstop & Hpassed & Hst').
    change (mem st1) with (mem st) in *.
    split_and!; try done; try lia.
    + intros i Hi. destruct (decide (i = r - 1)) as [->|]; [done|].
      apply Hpassed. lia.
    + eapply range_steps_trans; eauto.
  - apply run_ret. split_and!; try done; try lia.
  - apply run_ret. split_and!; try done; try lia; auto.
  - apply run_ret. split_and!; try done; try lia; auto.
Qed.

Lemma run_exchange {B} lo hi i j (k : M B) st (Q : B -> state -> Prop) :
  0 <= i < len (mem st) -> 0 <= j < len (mem st) ->
  lo <= i <= hi -> lo <= j <= hi ->
  (forall st', mem st' = swap_cells (mem st) i j -> range_steps lo hi st st' ->
               run_to k st' Q) ->
  run_to (swap <- load i ;; x <- load j ;; store i x ;;; store j swap ;;; k) st Q.
Proof.
  intros Hi Hj Hri Hrj Hk.
  apply run_bind, run_load; [done|].
  apply run_bind, run_load; [list_len|].
  apply run_bind, run_store; [list_len|].
  apply run_bind, run_store; [list_len|].
  apply Hk; [done|].
  apply (range_steps_write lo hi _
           {| mem := set (mem st) i (get (mem st) j);
              trace := Write i :: Read j :: Read i :: trace st |}); [|done].
  apply (range_steps_write lo hi _ (log_event (Read j) (log_event (Read i) st)));
    [|done].
  apply range_steps_read; [|done].
  apply range_steps_read; [apply range_steps_refl | done].
Qed.

Lemma length_swap_cells a i j : length (swap_cells a i j) = length a.
Proof. unfold swap_cells. by rewrite !length_set. Qed.

Lemma get_swap_cells a i j k :
  0 <= i < len a -> 0 <= j < len a -> 0 <= k ->
  get (swap_cells a i j) k =
    if decide (k = j) then get a i
    else if decide (k = i) then get a j else get a k.
Proof.
  intros Hi Hj Hk. unfold swap_cells.
  destruct (decide (k = j)) as [->|Hkj].
  { rewrite get_set_eq; [done | by rewrite length_set]. }
  rewrite get_set_ne by lia.
  destruct (decide (k = i)) as [->|Hki].
  { by rewrite get_set_eq. }
  by rewrite get_set_ne by lia.
Qed.

Lemma take_swap_cells a i j n :
  n <= i -> n <= j -> 0 <= n ->
  take (Z.to_nat n) (swap_cells a i j) = take (Z.to_nat n) a.
Proof.
  intros Hi Hj Hn. unfold swap_cells, set.
  by rewrite !take_insert_ge by lia.
Qed.

Lemma drop_swap_cells a i j n :
  0 <= i < n -> 0 <= j < n ->
  drop (Z.to_nat n) (swap_cells a i j) = drop (Z.to_nat n) a.
Proof.
  intros Hi Hj. unfold swap_cells, set.
  by rewrite !drop_insert_lt by lia.
Qed.

Lemma partition_loop_spec a0 L R fuel : forall l r st,
  part_inv a0 L R (mem st) l r ->
  0 <= L -> R < len a0 -> R < int_max ->
  (Z.to_nat (R - L + 1 + (r - l)) <= fuel)%nat ->
  run_to (partition_loop fuel l r R) st
    (fun l' st' => part_post a0 L R (mem st') l' /\ range_steps L R st st').
Proof.
  induction fuel as [|fuel IH]; intros l r st Hinv HL HR Hmax Hfuel.
  { destruct Hinv. lia. }
  destruct Hinv as [Hlen Hperm Htake Hdrop Hpivot Hcur Hleft Hright].
  cbn [partition_loop].
  apply run_bind. eapply run_weaken.
  { apply (scan_left_spec R L R fuel l st); lia. }
  cbn beta. intros l1 st1 (Hmem1 & Hl1 & Hstop1 & Hpassed1 & Hst1).
  rewrite Hpivot in Hstop1, Hpassed1.
  assert (Hl1r : l1 <= r).
  { destruct (decide (r = R)) as [->|]; [lia|].
    destruct (decide (l1 <= r)); [done|].
    pose proof (Hright r ltac:(lia)) as Hr'.
    rewrite Hpassed1 in Hr' by lia. discriminate. }
  apply run_bind. eapply run_weaken.
  { apply (scan_right_spec l1 R L R fuel r st1); rewrite ?Hmem1; lia. }
  cbn beta. intros r1 st2 (Hmem2 & Hr1 & Hlow & Hstop2 & Hpassed2 & Hst2).
  rewrite Hmem1, Hpivot in Hstop2, Hpassed2. rewrite Hmem1 in Hmem2.
  assert (Hst02 : range_steps L R st st2) by (eapply range_steps_trans; eauto).
  destruct (Z.geb_spec l1 r1) as [Hbreak|Hcont].
  - apply run_ret. split; [|done]. rewrite Hmem2.
    split; try done; try lia.
    + intros i Hi. destruct (decide (i <= l)); [apply Hleft; lia|].
      apply dlt_asym, Hpassed1. lia.
    + intros i Hi. destruct (decide (i = l1)) as [->|]; [done|].
      destruct (decide (r <= i)); [apply Hright; lia|].
      apply dlt_asym, Hpassed2. lia.
  - apply (run_exchange L R); rewrite ?Hmem2; [lia|lia|lia|lia|].
    intros st3 Hmem3 Hst3.
    eapply run_weaken.
    { apply (IH l1 r1 st3); try lia. rewrite Hmem3. split.
      - by rewrite length_swap_cells.
      - rewrite <- Hperm. apply swap_Permutation; lia.
      - rewrite take_swap_cells by lia. done.
      - rewrite drop_swap_cells by lia. done.
      - rewrite get_swap_cells by lia.
        rewrite !decide_False by lia. done.
      - lia.
      - intros i Hi. rewrite get_swap_cells by lia.
        rewrite decide_False by lia.
        destruct (decide (i = l1)) as [->|].
        + destruct Hstop2 as [Hstop2|]; [done | lia].
        + destruct (decide (i <= l)); [apply Hleft; lia|].
          apply dlt_asym, Hpassed1. lia.
      - intros i Hi. rewrite get_swap_cells by lia.
        destruct (decide (i = r1)) as [->|]; [done|].
        rewrite decide_False by lia.
        destruct (decide (r <= i)); [apply Hright; lia|].
        apply dlt_asym, Hpassed2. lia. }
    cbn beta. intros l' st' [Hpost Hst']. split; [done|].
    eapply range_steps_trans; [exact Hst02|].
    eapply range_steps_trans; eauto.
Qed.

Lemma length_range a i j :
  0 <= i <= j -> j <= len a -> len (range a i j) = j - i.
Proof. intros Hi Hj. unfold range. rewrite length_take, length_drop. lia. Qed.

Lemma Forall_range (P : double -> Prop) a i j :
  0 <= i -> j <= len a ->
  (forall k, i <= k < j -> P (get a k)) -> Forall P (range a i j).
Proof.
  intros Hi Hj HP. apply Forall_lookup. intros n x.
  unfold range. rewrite lookup_take_Some, lookup_drop. intros [Hx Hn].
  specialize (HP (i + Z.of_nat n) ltac:(lia)). unfold get in HP.
  replace (Z.to_nat (i + Z.of_nat n)) with (Z.to_nat i + n)%nat in HP by lia.
  by rewrite Hx in HP.
Qed.

Lemma array_split a L l R :
  0 <= L <= l -> l <= R -> R < len a ->
  a = take (Z.to_nat L) a ++ range a L l ++
      get a l :: range a (l + 1) (R + 1) ++ drop (Z.to_nat (R + 1)) a.
Proof.
  intros HL Hl HR. unfold range.
  rewrite <- (take_drop (Z.to_nat L) a) at 1. f_equal.
  rewrite <- (take_drop (Z.to_nat (l - L)) (drop (Z.to_nat L) a)) at 1. f_equal.
  rewrite drop_drop.
  replace (Z.to_nat L + Z.to_nat (l - L))%nat with (Z.to_nat l) by lia.
  rewrite (drop_S a (get a l) (Z.to_nat l)) by (apply lookup_get; lia). f_equal.
  replace (S (Z.to_nat l)) with (Z.to_nat (l + 1)) by lia.
  rewrite <- (take_drop (Z.to_nat (R + 1 - (l + 1))) (drop (Z.to_nat (l + 1)) a)) at 1.
  f_equal. rewrite drop_drop. f_equal. lia.
Qed.

(** [rc_partition] on the range [mid] of the array [pre ++ mid ++ post]:
    the pivot [p], the last element of [mid], ends between a part [left]
    without any element greater than [p] and a part [right] without any
    element less than [p]; the result is the index of [p]. *)
Lemma rc_partition_range pre mid post fuel st L R :
  mem st = pre ++ mid ++ post ->
  L = len pre -> R = len pre + len mid - 1 ->
  (2 <= length mid)%nat ->
  R < int_max ->
  (2 * length mid <= fuel)%nat ->
  run_to (rc_partition fuel L R) st
    (fun l st' => exists left right p,
        mem st' = pre ++ left ++ p :: right ++ post /\
        l = len pre + len left /\
        left ++ p :: right ≡ₚ mid /\
        last mid = Some p /\
        Forall (fun y => dlt p y = false) left /\
        Forall (fun y => dlt y p = false) right /\
        range_steps L R st st').
Proof.
  intros Hmem HLeq HReq Hmid Hmax Hfuel.
  pose proof Hmem as Hlen. apply (f_equal length) in Hlen.
  assert (HL : 0 <= L) by lia.
  assert (HLR : L < R) by lia.
  assert (HR : R < len (mem st)) by list_len.
  assert (HR1 : Z.to_nat (R + 1) = length (pre ++ mid)) by list_len.
  unfold rc_partition. unwrap.
  apply run_bind. eapply run_weaken.
  { apply (partition_loop_spec (mem st) L R fuel (L - 1) R st); try lia.
    split; try done; try lia. }
  cbn beta. intros l st1 [[Hlen1 Hperm Htake Hdrop Hpivot Hcur Hleft Hright] Hst1].
  apply (run_exchange L R); [lia|lia|lia|lia|]. intros st2 Hmem2 Hst2.
  apply run_ret.
  set (p := get (mem st) R) in *.
  assert (Hl : get (mem st2) l = p).
  { rewrite Hmem2, get_swap_cells by lia.
    destruct (decide (l = R)) as [->|]; [done|].
    by rewrite decide_True. }
  exists (range (mem st2) L l), (range (mem st2) (l + 1) (R + 1)), p.
  assert (Hlen2 : length (mem st2) = length (mem st)).
  { by rewrite Hmem2, length_swap_cells. }
  assert (Hsplit : mem st2 = pre ++ range (mem st2) L l ++
                     p :: range (mem st2) (l + 1) (R + 1) ++ post).
  { rewrite (array_split (mem st2) L l R) at 1 by lia.
    rewrite Hl. f_equal; [|do 3 f_equal].
    - rewrite Hmem2, take_swap_cells by lia. rewrite Htake, Hmem.
      rewrite HLeq. by rewrite Nat2Z.id, take_app_length.
    - rewrite Hmem2, drop_swap_cells by lia.
      replace (Z.to_nat (R + 1)) with (Z.to_nat R + 1)%nat by lia.
      rewrite <- !drop_drop, Hdrop, drop_drop.
      replace (Z.to_nat R + 1)%nat with (Z.to_nat (R + 1)) by lia.
      rewrite HR1, Hmem, app_assoc. by rewrite drop_app_length. }
  split_and!.
  - done.
  - rewrite length_range; lia.
  - apply (Permutation_app_inv_l pre), (Permutation_app_inv_r post).
    rewrite <- !app_assoc. cbn [app]. rewrite <- Hsplit, <- Hmem, Hmem2.
    etrans; [|exact Hperm]. apply swap_Permutation; lia.
  - destruct (list_snoc_case mid) as [->|(mid' & p' & ->)]; [cbn in Hmid; lia|].
    rewrite last_snoc. f_equal. subst p. rewrite Hmem.
    replace (pre ++ (mid' ++ [p']) ++ post) with ((pre ++ mid') ++ p' :: post)
      by (by rewrite <- !app_assoc).
    symmetry. apply get_middle. list_len.
  - apply Forall_range; [lia|lia|]. intros k Hk.
    rewrite Hmem2, get_swap_cells by lia.
    rewrite !decide_False by lia. apply Hleft. lia.
  - apply Forall_range; [lia|lia|]. intros k Hk.
    rewrite Hmem2, get_swap_cells by lia.
    destruct (decide (k = R)) as [->|]; [apply Hright; lia|].
    rewrite decide_False by lia. apply Hright. lia.
  - eapply range_steps_trans; eauto.
Qed.

Lemma rc_partition_spec pre mid post fuel st L R :
  mem st = pre ++ mid ++ post ->
  L = len pre -> R = len pre + len mid - 1 ->
  (2 <= length mid)%nat ->
  len (mem st) <= int_max ->
  (2 * length mid <= fuel)%nat ->
  run_to (rc_partition fuel L R) st
    (fun l st' => exists left right p,
        mem st' = pre ++ left ++ p :: right ++ post /\
        l = len pre + len left /\
        left ++ p :: right ≡ₚ mid /\
        last mid = Some p /\
        Forall (fun y => dlt p y = false) left /\
        Forall (fun y => dlt y p = false) right /\
        sort_steps st st').
Proof.
  intros Hmem HLeq HReq Hmid Hmax Hfuel.
  eapply run_weaken.
  { apply (rc_partition_range pre mid post); try done.
    rewrite Hmem in Hmax. list_len. }
  cbn beta. intros l st' (left & right & p & H1 & H2 & H3 & H4 & H5 & H6 & Hst).
  exists left, right, p. split_and!; try done.
  apply (range_steps_sort L R); [lia | rewrite Hmem; list_len | done].
Qed.

(** ** rc_sort on a range *)

Lemma no_nan_Permutation l l' : l ≡ₚ l' -> no_nan l -> no_nan l'.
Proof. intros Hp. unfold no_nan. by rewrite Hp. Qed.

(** A sorted part, the pivot, a sorted part. *)
Lemma sorted_around p left right :
  sorted left -> sorted right ->
  Forall (fun y => dle y p = true) left ->
  Forall (fun y => dle p y = true) right ->
  sorted (left ++ p :: right).
Proof.
  intros Hl Hr Hle Hge. rewrite Forall_forall in Hle, Hge.
  apply StronglySorted_app_2; [|done|].
  - intros x1 x2 H1 [->|H2]%elem_of_cons; [by apply Hle|].
    eapply dle_trans; [by apply Hle | by apply Hge].
  - apply StronglySorted_cons. split; [by apply Forall_forall | done].
Qed.

(** [rc_sort] on the range [mid] of the array [pre ++ mid ++ post]. *)
Lemma rc_sort_range fuel : forall pre mid post st L R,
  mem st = pre ++ mid ++ post ->
  L = len pre -> R = len pre + len mid - 1 ->
  R + 1 < int_max ->
  (2 * length mid + 2 <= fuel)%nat ->
  run_to (rc_sort fuel L R) st
    (fun _ st' => exists mid',
        mem st' = pre ++ mid' ++ post /\
        mid' ≡ₚ mid /\
        (no_nan mid -> sorted mid') /\
        (R - L <= 25 -> sorted mid -> mid' = mid) /\
        (R - L <= 25 -> mid' = insertion_sort mid) /\
        range_steps L R st st').
Proof.
  induction fuel as [|fuel IH]; intros pre mid post st L R Hmem HL HR Hmax Hfuel;
    [lia|].
  pose proof Hmem as Hlen. apply (f_equal length) in Hlen.
  cbn [rc_sort]. unwrap.
  destruct (Z.gtb_spec (R - L) 25) as [Hbig|Hsmall].
  - (* quicksort *)
    apply run_bind. eapply run_weaken.
    { apply (rc_partition_range pre mid post fuel st L R); try done; lia. }
    cbn beta.
    intros l st1 (left & right & p & Hmem1 & Hl & Hperm & Hp & Hleft & Hright & Hst1).
    pose proof (Permutation_length Hperm) as Hplen.
    rewrite length_app in Hplen. cbn [length] in Hplen.
    assert (Hlen1 : length (mem st1) = length (mem st)) by apply Hst1.
    apply run_bind. unwrap. eapply run_weaken.
    { apply (IH pre left (p :: right ++ post) st1 L (l - 1)); try done; lia. }
    cbn beta. intros _ st2 (left' & Hmem2 & Hperm2 & Hsorted2 & _ & _ & Hst2).
    pose proof (Permutation_length Hperm2) as Hplen2.
    assert (Hlen2 : length (mem st2) = length (mem st1)) by apply Hst2.
    unwrap. eapply run_weaken.
    { apply (IH (pre ++ left' ++ [p]) right post st2 (l + 1) R); try lia.
      - rewrite Hmem2. by rewrite <- !app_assoc.
      - list_len.
      - list_len. }
    cbn beta. intros _ st3 (right' & Hmem3 & Hperm3 & Hsorted3 & _ & _ & Hst3).
    exists (left' ++ p :: right'). split_and!.
    + rewrite Hmem3. by rewrite <- !app_assoc.
    + by rewrite Hperm2, Hperm3.
    + intros Hnan. apply (no_nan_Permutation _ _ (symmetry Hperm)) in Hnan.
      unfold no_nan in Hnan. rewrite Forall_app, Forall_cons in Hnan.
      destruct Hnan as (Hnl & Hnp & Hnr).
      apply sorted_around; [by apply Hsorted2 | by apply Hsorted3 | |].
      * rewrite Hperm2. rewrite Forall_forall in Hleft, Hnl |- *.
        intros y Hy. apply not_dlt_dle; auto.
      * rewrite Hperm3. rewrite Forall_forall in Hright, Hnr |- *.
        intros y Hy. apply not_dlt_dle; auto.
    + lia.
    + lia.
    + eapply range_steps_trans; [exact Hst1|].
      eapply range_steps_trans.
      * apply (range_steps_mono L (l - 1)); [lia | lia | exact Hst2].
      * apply (range_steps_mono (l + 1) R); [lia | lia | exact Hst3].
  - (* insertion sort *)
    destruct mid as [|x rest].
    + destruct fuel as [|fuel]; [lia|]. cbn [insertion_loop].
      rewrite leb_false by list_len. apply run_ret.
      exists []. split_and!; auto using range_steps_refl. constructor.
    + replace (L + 1) with (len pre + len [x]) by list_len.
      replace R with (len pre + len [x] + len rest - 1) by list_len.
      subst L. eapply run_weaken.
      { apply (insertion_loop_spec pre post (len pre)
                 (len pre + len [x] + len rest - 1) fuel rest [x] st);
          [done|list_len|lia|lia|list_len]. }
      cbn beta. intros _ st' (srt' & Hmem' & Hperm & Hsorted & Hsame & Hfun & Hst').
      exists srt'. split_and!; try done.
      * intros Hnan. apply Hsorted; [done|].
        apply StronglySorted_cons. split; constructor.
Qed.

Lemma rc_sort_spec fuel : forall pre mid post st L R,
  mem st = pre ++ mid ++ post ->
  L = len pre -> R = len pre + len mid - 1 ->
  len (mem st) < int_max ->
  (2 * length mid + 2 <= fuel)%nat ->
  run_to (rc_sort fuel L R) st
    (fun _ st' => exists mid',
        mem st' = pre ++ mid' ++ post /\
        mid' ≡ₚ mid /\
        (no_nan mid -> sorted mid') /\
        (R - L <= 25 -> sorted mid -> mid' = mid) /\
        sort_steps st st').
Proof.
  intros pre mid post st L R Hmem HL HR Hmax Hfuel.
  eapply run_weaken.
  { apply (rc_sort_range fuel pre mid post); try done.
    rewrite Hmem in Hmax. list_len. }
  cbn beta. intros _ st' (mid' & H1 & H2 & H3 & H4 & _ & Hst).
  exists mid'. split_and!; try done.
  destruct Hst as [Hl Hs]. split; [done|].
  eapply steps_impl; [|exact Hs].
  intros [i|i|x|x]; cbn; [| |done|done]; rewrite Hmem; list_len.
Qed.

(** ** Floating-point addition *)

Lemma dadd_comm x y : dadd x y = dadd y x.
Proof.
  destruct x as [sx|sx| |sx mx ex], y as [sy|sy| |sy my ey].
  16: { unfold dadd, SFadd. by rewrite Z.min_comm, Z.add_comm. }
  all: try (destruct sx); try (destruct sy); reflexivity.
Qed.

Lemma dadd_zero_l s y : y <> neg_zero -> dadd (S754_zero s) y = y.
Proof.
  intros Hy. destruct y as [[]| | |]; destruct s; try reflexivity.
  by destruct Hy.
Qed.

Lemma dadd_zero_r x : is_finite x = true -> x <> neg_zero -> dadd x zero = x.
Proof.
  intros Hf Hx. destruct x as [[]| | |]; try reflexivity; try discriminate Hf.
  by destruct Hx.
Qed.

Lemma dsub_zeros s s' : exists s'', dsub (S754_zero s) (S754_zero s') = S754_zero s''.
Proof. destruct s, s'; eexists; reflexivity. Qed.

Lemma deq_refl x : is_nan x = false -> deq x x = true.
Proof. intros Hx. unfold deq, SFeqb. by rewrite SFcompare_key, kcmp_refl. Qed.

Lemma deq_neg_infinity x : deq neg_infinity x = true <-> x = neg_infinity.
Proof.
  split; [|by intros ->].
  destruct x as [[]|[]| |[]]; intros H; try reflexivity; discriminate H.
Qed.

Lemma coarse_libm_annex_f : annex_f coarse_libm.
Proof.
  split.
  - reflexivity.
  - reflexivity.
  - reflexivity.
  - intros [[]|[]| |[] m e]; discriminate.
  - intros [[]|[]| |[] m e]; try discriminate.
    change (log (S754_finite false m e))
      with (if deq (S754_finite false m e) one then zero
            else if dlt (S754_finite false m e) one
                 then S754_finite true 4503599627370496 (-52) else one).
    destruct (deq _ _); [discriminate|]. destruct (dlt _ _); discriminate.
Qed.

(** ** The summation of rc_logsumexp *)

Lemma range_cons a i j :
  0 <= i < j -> j <= len a -> range a i j = get a i :: range a (i + 1) j.
Proof.
  intros Hi Hj. unfold range.
  rewrite (drop_S a (get a i) (Z.to_nat i)) by (apply lookup_get; lia).
  replace (Z.to_nat (j - i)) with (S (Z.to_nat (j - (i + 1)))) by lia.
  cbn [take]. do 3 f_equal. lia.
Qed.

Lemma range_nil a i : range a i i = [].
Proof. unfold range. by rewrite Z.sub_diag. Qed.

Lemma range_all a : range a 0 (len a) = a.
Proof.
  unfold range. rewrite Z.sub_0_r, Nat2Z.id. cbn [Z.to_nat drop].
  by rewrite take_ge.
Qed.

Lemma range_split a L R :
  0 <= L <= R -> R <= len a ->
  a = take (Z.to_nat L) a ++ range a L R ++ drop (Z.to_nat R) a.
Proof.
  intros HL HR. unfold range.
  rewrite <- (take_drop (Z.to_nat L) a) at 1. f_equal.
  rewrite <- (take_drop (Z.to_nat (R - L)) (drop (Z.to_nat L) a)) at 1. f_equal.
  rewrite drop_drop. f_equal. lia.
Qed.

Lemma array_access_within n e : array_access n e -> within n e.
Proof. by destruct e. Qed.

Lemma calls_access e t : is_call e = false -> calls (e :: t) = calls t.
Proof. intros He. unfold calls. cbn [List.filter]. by rewrite He. Qed.

Lemma calls_call e t : is_call e = true -> calls (e :: t) = calls t ++ [e].
Proof.
  intros He. unfold calls. cbn [List.filter]. by rewrite He, reverse_cons.
Qed.

Lemma steps_calls (P : event -> Prop) st st' :
  steps P st st' -> (forall e, P e -> is_call e = false) ->
  calls (trace st') = calls (trace st).
Proof.
  intros (evs & -> & Hevs) HP.
  induction Hevs as [|e evs He _ IH]; [done|].
  cbn [app]. rewrite calls_access by auto. done.
Qed.

Section LogSumExpSpec.
Context `{Libm}.

Lemma run_call_exp x st (Q : double -> state -> Prop) :
  Q (exp x) (log_event (CallExp x) st) -> run_to (call_exp x) st Q.
Proof. intros HQ. by eexists _, _. Qed.

Lemma run_call_log x st (Q : double -> state -> Prop) :
  Q (log x) (log_event (CallLog x) st) -> run_to (call_log x) st Q.
Proof. intros HQ. by eexists _, _. Qed.

Lemma sum_loop_spec N fuel : forall i sum st,
  N <= len (mem st) -> 0 <= i <= N - 1 -> N <= int_max ->
  (Z.to_nat (N - i) <= fuel)%nat ->
  run_to (sum_loop fuel i N sum) st
    (fun v st' =>
       mem st' = mem st /\
       v = fold_left (lse_add (get (mem st) (N - 1)))
             (range (mem st) i (N - 1)) sum /\
       steps (within N) st st' /\
       calls (trace st') =
         calls (trace st) ++
         map (fun x => CallExp (dsub x (get (mem st) (N - 1))))
           (range (mem st) i (N - 1))).
Proof.
  induction fuel as [|fuel IH]; intros i sum st HN Hi Hmax Hfuel; [lia|].
  cbn [sum_loop]. unwrap.
  destruct (Z.ltb_spec i (N - 1)) as [Hlt|Hge].
  - apply run_bind, run_load; [lia|].
    apply run_bind, run_load; [list_len|]. cbn [mem log_event].
    apply run_bind, run_call_exp.
    match goal with |- run_to _ ?s _ => set (st1 := s) end.
    eapply run_weaken; [apply (IH (i + 1) _ st1); subst st1; list_len|].
    cbn beta. intros v st' (Hmem & Hv & Hst' & Hcalls).
    change (mem st1) with (mem st) in *.
    rewrite (range_cons (mem st) i) by lia.
    split_and!; [done|done| |].
    + eapply steps_trans; [|exact Hst'].
      subst st1. repeat (apply steps_log; [|cbn; lia || done]).
      apply steps_refl.
    + rewrite Hcalls. subst st1. cbn [trace log_event map].
      rewrite calls_call, !calls_access by done. by rewrite <- app_assoc.
  - apply run_ret. replace i with (N - 1) by lia.
    rewrite range_nil. cbn [map]. rewrite app_nil_r.
    split_and!; [done|done|apply steps_refl|done].
Qed.

(** [rc_logsumexp] on the first [N] cells of an array, [a], followed by
    further cells, [post]. *)
Lemma rc_logsumexp_prefix_spec a post st N fuel :
  mem st = a ++ post -> N = len a -> 1 <= N -> N < int_max ->
  (2 * length a + 2 <= fuel)%nat ->
  run_to (rc_logsumexp fuel N) st
    (fun v st' => exists s,
       mem st' = s ++ post /\
       s ≡ₚ a /\
       (no_nan a -> sorted s) /\
       (N <= 26 -> s = insertion_sort a) /\
       steps (within N) st st' /\
       if deq neg_infinity (get s (N - 1))
       then v = neg_infinity /\ steps (array_access N) st st'
       else v = lse_value (take (Z.to_nat (N - 1)) s) (get s (N - 1)) /\
            calls (trace st') =
              calls (trace st) ++
              map (fun x => CallExp (dsub x (get s (N - 1))))
                (take (Z.to_nat (N - 1)) s) ++
              [CallLog (dadd (fold_left (lse_add (get s (N - 1)))
                                (take (Z.to_nat (N - 1)) s) zero) one)]).
Proof.
  intros Hmem HN HN1 Hmax Hfuel. unfold rc_logsumexp.
  pose proof Hmem as Hlen. apply (f_equal length) in Hlen.
  rewrite length_app in Hlen. unwrap.
  apply run_bind. eapply run_weaken.
  { apply (rc_sort_range fuel [] a post st 0 (N - 1));
      cbn [app length]; try done; lia. }
  cbn beta. intros _ st1 (s & Hmem1 & Hperm & Hsorted & _ & Hins & Hlen1 & Hst1).
  cbn [app] in Hmem1.
  pose proof (Permutation_length Hperm) as Hplen.
  assert (Haccess : steps (array_access N) st st1).
  { eapply steps_impl; [|exact Hst1]. intros [i|i|x|x]; cbn; lia. }
  assert (Hget : get (mem st1) (N - 1) = get s (N - 1)).
  { rewrite Hmem1. unfold get. rewrite lookup_app_l; [done|lia]. }
  assert (Hrange : range (mem st1) 0 (N - 1) = take (Z.to_nat (N - 1)) s).
  { unfold range. rewrite Z.sub_0_r, Hmem1.
    change (Z.to_nat 0) with 0%nat. rewrite drop_0.
    rewrite take_app_le; [done|lia]. }
  apply run_bind, run_load; [lia|].
  rewrite Hget.
  destruct (deq neg_infinity (get s (N - 1))) eqn:Hinf.
  - apply run_ret. cbn [mem log_event]. exists s. rewrite Hinf.
    assert (steps (array_access N) st (log_event (Read (N - 1)) st1)).
    { apply steps_log; [done|]. cbn. lia. }
    split_and!; try done; [intros; apply Hins; lia|].
    eapply steps_impl; [apply array_access_within | done].
  - apply run_bind. eapply run_weaken.
    { apply (sum_loop_spec N fuel 0 zero); cbn [mem log_event]; lia. }
    cbn beta. cbn [mem log_event].
    intros v st2 (Hmem2 & Hv & Hst2 & Hcalls).
    apply run_bind, run_load; [rewrite Hmem2; lia|].
    apply run_bind, run_call_log. apply run_ret.
    cbn [mem log_event]. rewrite Hmem2, Hget, Hrange in *. exists s. rewrite Hinf.
    split_and!; try done.
    + intros; apply Hins; lia.
    + repeat (apply steps_log; [|cbn; lia || done]).
      eapply steps_trans; [|exact Hst2].
      apply steps_log; [|cbn; lia].
      eapply steps_impl; [apply array_access_within | done].
    + unfold lse_value. by rewrite Hv.
    + cbn [trace log_event]. rewrite calls_call, calls_access, Hcalls by done.
      cbn [trace log_event]. rewrite calls_access by done.
      rewrite (steps_calls _ _ _ Haccess) by (by intros []).
      by rewrite Hv, <- !app_assoc.
Qed.

Lemma rc_logsumexp_spec st N fuel :
  N = len (mem st) -> 1 <= N -> N < int_max ->
  (2 * length (mem st) + 2 <= fuel)%nat ->
  run_to (rc_logsumexp fuel N) st
    (fun v st' =>
       mem st' ≡ₚ mem st /\
       (no_nan (mem st) -> sorted (mem st')) /\
       if deq neg_infinity (get (mem st') (N - 1))
       then v = neg_infinity /\ steps (array_access N) st st'
       else v = lse_value (take (Z.to_nat (N - 1)) (mem st'))
                  (get (mem st') (N - 1)) /\
            steps (within N) st st').
Proof.
  intros HN HN1 Hmax Hfuel.
  eapply run_weaken.
  { apply (rc_logsumexp_prefix_spec (mem st) [] st N fuel);
      rewrite ?app_nil_r; try done; lia. }
  cbn beta. intros v st' (s & Hmem' & Hperm & Hsorted & _ & Hst & Hv).
  rewrite app_nil_r in Hmem'. subst s.
  split_and!; try done.
  destruct (deq neg_infinity _); [done|]. by destruct Hv.
Qed.
End LogSumExpSpec.

(** ** An array of INT_MAX cells

    [rc_sort] computes [L + 1] and [l + 1] up to [R + 2]: the lemmas above
    ask for [R + 1 < INT_MAX].  On the full range of an array of [INT_MAX]
    cells that is not so. *)

(** When the last cell of an array of [INT_MAX] cells is greater than all
    others, the pivot of the first partition stays where it is, the range
    to its right is [INT_MAX..INT_MAX-1], and there the insertion branch
    starts from [INT_MAX + 1], which wraps to [INT_MIN]. *)
Lemma rc_sort_int_max (a : list double) (x : double) (st : state) (fuel : nat) :
  mem st = a ++ [x] -> len a = int_max - 1 ->
  Forall (fun y => dlt y x = true) a ->
  (2 * length a + 4 <= fuel)%nat ->
  rc_sort fuel 0 (int_max - 1) st = OutOfBounds int_min.
Proof.
  intros Hmem Hlen Hall Hfuel.
  assert (Hmax : int_max = 2147483647) by reflexivity.
  assert (Hmin : int_min = -2147483648) by reflexivity.
  destruct fuel as [|fuel]; [lia|]. cbn [rc_sort].
  unfold int_sub at 1. rewrite int_wrap_id by lia.
  rewrite gtb_true by lia.
  destruct (rc_partition_range [] (a ++ [x]) [] fuel st 0 (int_max - 1))
    as (l & st1 & Hpart & left & right & p & Hmem1 & Hl & Hperm & Hp & _ & Hright & Hst1).
  { by rewrite app_nil_r. }
  { done. }
  { rewrite length_app. cbn [length]. lia. }
  { rewrite length_app. cbn [length]. lia. }
  { lia. }
  { rewrite length_app. cbn [length]. lia. }
  unfold bind at 1. rewrite Hpart. cbv beta iota.
  rewrite last_snoc in Hp. injection Hp as <-.
  cbn [app length] in Hmem1, Hl. rewrite app_nil_r in Hmem1.
  assert (Hperm' : left ++ right ≡ₚ a).
  { apply (Permutation_cons_inv (a := x)).
    by rewrite Permutation_middle, Hperm, <- Permutation_cons_append. }
  assert (Hr : right = []).
  { destruct right as [|y right]; [done|].
    apply Forall_cons in Hright as [Hy _].
    rewrite Forall_forall in Hall. rewrite (Hall y) in Hy; [done|].
    rewrite <- Hperm'. apply elem_of_app. right. left. }
  subst right. rewrite app_nil_r in Hperm'.
  pose proof (Permutation_length Hperm') as Hlenl.
  assert (Hl' : l = int_max - 1) by lia. clear Hl. subst l.
  (* the range to the left of the pivot *)
  destruct (rc_sort_range fuel [] left [x] st1 0 (int_max - 1 - 1))
    as ([] & st2 & Hleft & _); cbn [length]; try done; try lia.
  unfold bind at 1. unfold int_sub at 1.
  rewrite (int_wrap_id (int_max - 1 - 1)) by lia. rewrite Hleft. cbv beta iota.
  (* the range to its right *)
  unfold int_add at 1.
  rewrite (int_wrap_id (int_max - 1 + 1)) by lia.
  destruct fuel as [|fuel]; [lia|]. cbn [rc_sort].
  unfold int_sub at 1.
  rewrite (int_wrap_id (int_max - 1 - (int_max - 1 + 1))) by lia.
  rewrite gtb_false by lia.
  destruct fuel as [|fuel]; [lia|]. cbn [insertion_loop].
  replace (int_add (int_max - 1 + 1) 1) with int_min by (by rewrite Hmax).
  rewrite leb_true by lia.
  unfold bind at 1. unfold load. rewrite in_bounds_false by lia. done.
Qed.

Lemma rc_logsumexp_int_max `{Libm}
    (a : list double) (x : double) (st : state) (fuel : nat) :
  mem st = a ++ [x] -> len a = int_max - 1 ->
  Forall (fun y => dlt y x = true) a ->
  (2 * length a + 4 <= fuel)%nat ->
  rc_logsumexp fuel int_max st = OutOfBounds int_min.
Proof.
  intros Hmem Hlen Hall Hfuel. unfold rc_logsumexp.
  replace (int_sub int_max 1) with (int_max - 1) by reflexivity.
  unfold bind at 1. by rewrite (rc_sort_int_max a x).
Qed.

Lemma int_max_array_facts :
  len (replicate (Z.to_nat (int_max - 1)) zero) = int_max - 1 /\
  Forall (fun y => dlt y one = true) (replicate (Z.to_nat (int_max - 1)) zero).
Proof.
  split.
  - rewrite length_replicate. apply Z2Nat.id. by apply Z.leb_le.
  - apply Forall_replicate. reflexivity.
Qed.

(** * The claims *)

(** ** Ranges given by their bounds *)

Lemma range_app3 pre mid post L R :
  L = len pre -> R = len pre + len mid ->
  take (Z.to_nat L) (pre ++ mid ++ post) = pre /\
  range (pre ++ mid ++ post) L R = mid /\
  drop (Z.to_nat R) (pre ++ mid ++ post) = post.
Proof.
  intros -> ->. unfold range. rewrite Nat2Z.id. split_and!.
  - by rewrite take_app_length.
  - rewrite drop_app_length.
    replace (Z.to_nat (len pre + len mid - len pre)) with (length mid) by lia.
    by rewrite take_app_length.
  - rewrite app_assoc.
    replace (Z.to_nat (len pre + len mid)) with (length (pre ++ mid))
      by (rewrite length_app; lia).
    by rewrite drop_app_length.
Qed.

(** ** The claims on rc_sort *)

Lemma rc_sort_no_op (st : state) (L R : Z) (fuel : nat) :
  int_min <= R -> R < L -> L < int_max -> int_min <= R - L ->
  (2 <= fuel)%nat ->
  rc_sort fuel L R st = Ok tt st.
Proof.
  intros HR HRL HL Hsub Hfuel.
  destruct fuel as [|fuel]; [lia|]. cbn [rc_sort]. unfold int_add, int_sub.
  rewrite (int_wrap_id (R - L)), (int_wrap_id (L + 1)) by list_len.
  rewrite gtb_false by lia.
  destruct fuel as [|fuel]; [lia|]. cbn [insertion_loop].
  by rewrite leb_false by lia.
Qed.

(** C8, as stated, fails at [L = INT_MAX], [R = INT_MAX - 1]: the
    insertion branch starts its loop at [L + 1], which wraps to [INT_MIN],
    finds it no greater than [R] and reads [array[INT_MIN]]. *)
Lemma rc_sort_empty_range_int_max_counterexample :
  int_max - 1 < int_max /\
  rc_sort 4 int_max (int_max - 1) (init [of_Z 7; of_Z 5; of_Z 3]) =
    OutOfBounds int_min.
Proof. split; reflexivity. Qed.

(** C8, amended: on an empty or inverted range, [L > R], with [L] and [R]
    ints at which [R - L] and [L + 1], which the function computes, do not
    overflow ([INT_MIN <= R], [L < INT_MAX], [INT_MIN <= R - L]),
    [rc_sort] ends in the state it started from: the array is unchanged
    and the trace has no new event, so no cell was read or written.  The
    array is arbitrary (it may be empty, and [L] and [R] need not be
    indices of it). *)
Theorem rc_sort_empty_range (st : state) (L R : Z) (fuel : nat) :
  int_min <= R -> R < L -> L < int_max -> int_min <= R - L ->
  (2 <= fuel)%nat ->
  rc_sort fuel L R st = Ok tt st.
Proof. apply rc_sort_no_op. Qed.

Lemma rc_sort_empty_range_witness :
  rc_sort 2 3 2 (init [of_Z 7; of_Z 5; of_Z 3]) =
    Ok tt (init [of_Z 7; of_Z 5; of_Z 3]).
Proof. apply rc_sort_empty_range; unfold int_min, int_max; lia. Defined.

(** C2, as stated, fails on an array that holds a NaN: [rc_sort] leaves
    [2.0; NaN; 1.0] as it is, and that is not in non-decreasing order. *)
Lemma rc_sort_nan_counterexample :
  final_mem (rc_sort 8 0 2 (init [of_Z 2; nan; of_Z 1]))
    = Some [of_Z 2; nan; of_Z 1] /\
  ~ Sorted (fun x y => dle x y = true) [of_Z 2; nan; of_Z 1].
Proof.
  split; [reflexivity|].
  intros Hs. inversion Hs as [|x l _ Hd]; subst.
  inversion Hd as [|y l' Hle]; subst. discriminate Hle.
Qed.

(** C2, amended: for every array and every range [L..R] within its bounds
    (the empty range [R = L - 1] included, so the full range of an array of
    any length), [rc_sort] ends, leaves the cells outside of the range as
    they were, and leaves in the range a permutation of what it held; when
    the range held no NaN, it is left in non-decreasing order. *)
Theorem rc_sort_sorts (st : state) (L R : Z) (fuel : nat) :
  0 <= L -> L <= R + 1 -> R < len (mem st) -> len (mem st) < int_max ->
  (2 * Z.to_nat (R - L + 1) + 2 <= fuel)%nat ->
  exists st',
    rc_sort fuel L R st = Ok tt st' /\
    take (Z.to_nat L) (mem st') = take (Z.to_nat L) (mem st) /\
    drop (Z.to_nat (R + 1)) (mem st') = drop (Z.to_nat (R + 1)) (mem st) /\
    range (mem st') L (R + 1) ≡ₚ range (mem st) L (R + 1) /\
    (no_nan (range (mem st) L (R + 1)) -> sorted (range (mem st') L (R + 1))).
Proof.
  intros HL HLR HR Hmax Hfuel.
  pose proof (range_split (mem st) L (R + 1) ltac:(lia) ltac:(lia)) as Hsplit.
  pose proof (length_range (mem st) L (R + 1) ltac:(lia) ltac:(lia)) as Hlen.
  set (pre := take (Z.to_nat L) (mem st)) in *.
  set (mid := range (mem st) L (R + 1)) in *.
  set (post := drop (Z.to_nat (R + 1)) (mem st)) in *.
  assert (Hpre : L = len pre) by (subst pre; rewrite length_take; lia).
  destruct (rc_sort_spec fuel pre mid post st L R Hsplit)
    as ([] & st' & Hrun & mid' & Hmem' & Hperm & Hsorted & _ & _); try lia.
  exists st'. split; [done|].
  pose proof (Permutation_length Hperm) as Hplen.
  destruct (range_app3 pre mid' post L (R + 1)) as (Ht & Hr & Hd); try lia.
  rewrite Hmem', Ht, Hr, Hd. done.
Qed.

Lemma rc_sort_sorts_witness :
  exists st',
    rc_sort 8 1 3 (init [of_Z 9; of_Z 3; of_Z 1; of_Z 2; of_Z 0]) = Ok tt st' /\
    sorted (range (mem st') 1 4).
Proof.
  destruct (rc_sort_sorts (init [of_Z 9; of_Z 3; of_Z 1; of_Z 2; of_Z 0]) 1 3 8)
    as (st' & Hrun & _ & _ & _ & Hsorted);
    [lia | lia | cbn; lia | cbn; unfold int_max; lia | cbn; lia |].
  exists st'. split; [exact Hrun|]. apply Hsorted.
  repeat constructor.
Defined.

(** C7, as stated, fails when the range holds a NaN: on [NaN; 1.0; ...;
    1.0] (27 cells) the pivot 1.0 ends at index 13 and the NaN at index
    25, to its right, where it is not greater than or equal to the
    pivot. *)
Lemma rc_partition_nan_counterexample :
  exists st',
    rc_partition 54 0 26 (init (nan :: replicate 26 one)) = Ok 13 st' /\
    get (mem st') 13 = one /\
    get (mem st') 25 = nan /\
    dle (get (mem st') 13) (get (mem st') 25) = false.
Proof. eexists. vm_compute. split_and!; reflexivity. Qed.

(** C7, amended: [rc_sort] takes the quicksort branch exactly when
    [R - L > 25].  There the pivot [p] is the element initially at index
    [R]; when the cursors have met or crossed, the left cursor's element is
    exchanged with the pivot, after which the range reads [left], [p],
    [right], with [p] at the index [l] that is returned, no element of
    [left] (indices [L] to [l - 1]) greater than [p] and no element of
    [right] (indices [l + 1] to [R]) less than [p]; when the range holds no
    NaN, that is every element of [left] less than or equal to [p] and
    every element of [right] greater than or equal to it.  The recursive
    calls are on [L..l-1] and [l+1..R]. *)
Theorem rc_sort_quicksort_branch (st : state) (L R : Z) (fuel : nat) :
  0 <= L -> L <= R + 1 -> R < len (mem st) -> len (mem st) < int_max ->
  (2 * Z.to_nat (R - L + 1) <= fuel)%nat ->
  (R - L <= 25 ->
   rc_sort (S fuel) L R st = insertion_loop fuel (L + 1) L R st) /\
  (25 < R - L ->
   exists l st1 left right,
     rc_partition fuel L R st = Ok l st1 /\
     mem st1 = take (Z.to_nat L) (mem st) ++ left ++
                 get (mem st) R :: right ++ drop (Z.to_nat (R + 1)) (mem st) /\
     l = L + len left /\ R = l + len right /\
     left ++ get (mem st) R :: right ≡ₚ range (mem st) L (R + 1) /\
     Forall (fun y => dgt y (get (mem st) R) = false) left /\
     Forall (fun y => dlt y (get (mem st) R) = false) right /\
     (no_nan (range (mem st) L (R + 1)) ->
      Forall (fun y => dle y (get (mem st) R) = true) left /\
      Forall (fun y => dle (get (mem st) R) y = true) right) /\
     rc_sort (S fuel) L R st =
       (rc_sort fuel L (l - 1) ;;; rc_sort fuel (l + 1) R) st1).
Proof.
  intros HL HLR HR Hmax Hfuel. split.
  - intros Hsmall. cbn [rc_sort]. unwrap. by rewrite gtb_false by lia.
  - intros Hbig.
    pose proof (range_split (mem st) L (R + 1) ltac:(lia) ltac:(lia)) as Hsplit.
    pose proof (length_range (mem st) L (R + 1) ltac:(lia) ltac:(lia)) as Hlen.
    set (pre := take (Z.to_nat L) (mem st)) in *.
    set (mid := range (mem st) L (R + 1)) in *.
    set (post := drop (Z.to_nat (R + 1)) (mem st)) in *.
    assert (Hpre : L = len pre) by (subst pre; rewrite length_take; lia).
    destruct (rc_partition_spec pre mid post fuel st L R Hsplit)
      as (l & st1 & Hrun & left & right & p & Hmem1 & Hl & Hperm & Hp &
          Hleft & Hright & Hst1); try lia.
    assert (Hpivot : get (mem st) R = p).
    { apply last_Some in Hp as [mid' Hmid]. rewrite Hsplit, Hmid.
      replace (pre ++ (mid' ++ [p]) ++ post) with ((pre ++ mid') ++ p :: post)
        by (by rewrite <- !app_assoc).
      apply get_middle. rewrite Hmid in Hlen. list_len. }
    rewrite Hpivot.
    pose proof (Permutation_length Hperm) as Hplen.
    rewrite length_app in Hplen. cbn [length] in Hplen.
    exists l, st1, left, right. split_and!; try done; try lia.
    + eapply Forall_impl; [exact Hleft|]. intros y Hy. by rewrite dgt_dlt.
    + intros Hnan. apply (no_nan_Permutation _ _ (symmetry Hperm)) in Hnan.
      unfold no_nan in Hnan. rewrite Forall_app, Forall_cons in Hnan.
      destruct Hnan as (Hnl & Hnp & Hnr).
      rewrite Forall_forall in Hleft, Hright, Hnl, Hnr.
      split; apply Forall_forall; intros y Hy; apply not_dlt_dle; auto.
    + cbn [rc_sort]. unwrap. rewrite gtb_true by lia.
      unfold bind at 1. rewrite Hrun. by unwrap.
Qed.

Lemma rc_sort_quicksort_branch_witness :
  exists l st1,
    rc_partition 54 0 26 (init (of_Z <$> seqZ 0 27)) = Ok l st1 /\
    get (mem st1) l = of_Z 26.
Proof.
  destruct (rc_sort_quicksort_branch (init (of_Z <$> seqZ 0 27)) 0 26 54)
    as [_ Hq]; [lia | lia | by vm_compute | by vm_compute | by vm_compute |].
  destruct Hq as (l & st1 & left & right & Hrun & Hmem & Hl & _); [lia|].
  exists l, st1. split; [exact Hrun|].
  rewrite Hmem. rewrite app_assoc. apply get_middle.
  rewrite length_app, length_take, Hl. cbn [Z.to_nat Nat.min]. lia.
Defined.

(** ** Sorting a sorted range *)

Lemma dle_canon x y : dle (canon x) (canon y) = dle x y.
Proof. by destruct x, y. Qed.

Lemma canon_same x y : canon x = canon y -> same_up_to_zero_sign x y.
Proof.
  unfold same_up_to_zero_sign.
  destruct x, y; cbn [canon]; intros [= ]; subst; eauto.
Qed.

Lemma canon_antisym x y :
  dle (canon x) (canon y) = true -> dle (canon y) (canon x) = true ->
  canon x = canon y.
Proof.
  intros Hxy Hyx. destruct (dle_antisym _ _ Hxy Hyx) as [|(s & s' & Hx & Hy)];
    [done|].
  destruct x, y; try discriminate; done.
Qed.

(** Two sorted lists with the same elements agree up to the sign of zeros. *)
Lemma sorted_Permutation_same l1 l2 :
  sorted l1 -> sorted l2 -> l1 ≡ₚ l2 -> Forall2 same_up_to_zero_sign l1 l2.
Proof.
  intros H1 H2 Hperm.
  assert (Heq : canon <$> l1 = canon <$> l2).
  { apply (StronglySorted_unique_strong (fun x y => dle x y = true)).
    - intros x1 x2 (y1 & -> & _)%list_elem_of_fmap (y2 & -> & _)%list_elem_of_fmap.
      apply canon_antisym.
    - eapply StronglySorted_fmap; [|exact H1].
      intros x y. by rewrite dle_canon.
    - eapply StronglySorted_fmap; [|exact H2].
      intros x y. by rewrite dle_canon.
    - by rewrite Hperm. }
  apply list_eq_Forall2 in Heq. rewrite Forall2_fmap in Heq.
  eapply Forall2_impl; [exact Heq|]. apply canon_same.
Qed.

Lemma sorted_no_nan l : sorted l -> (2 <= length l)%nat -> no_nan l.
Proof.
  destruct l as [|x [|y l]]; cbn [length]; [lia|lia|]. intros Hs _.
  apply StronglySorted_cons in Hs as [Hx _].
  pose proof Hx as Hxy. apply Forall_cons in Hxy as [Hxy _].
  constructor; [by apply dle_not_nan in Hxy as [? _]|].
  eapply Forall_impl; [exact Hx|]. intros z Hz.
  by apply dle_not_nan in Hz as [_ ?].
Qed.

Lemma Forall2_same_eq l1 l2 :
  Forall2 same_up_to_zero_sign l1 l2 ->
  (forall x y, x ∈ l1 -> y ∈ l2 -> same_up_to_zero_sign x y -> x = y) ->
  l1 = l2.
Proof.
  induction 1 as [|x y l1 l2 Hxy _ IH]; intros Heq; [done|].
  f_equal.
  - apply Heq; [by left | by left | done].
  - apply IH. intros x' y' Hx' Hy'. apply Heq; by right.
Qed.

Lemma Forall2_same_refl l : Forall2 same_up_to_zero_sign l l.
Proof. apply Forall_Forall2_diag, Forall_forall. intros x _. by left. Qed.

(** C9, as stated, fails in the quicksort branch when zeros of both signs
    meet: the array of 24 cells -1.0 followed by [+0.0; -0.0; +0.0] is in
    non-decreasing order (the zeros compare equal), and [rc_sort] exchanges
    the cells 24 and 25. *)
Lemma rc_sort_signed_zero_counterexample :
  sorted (replicate 24 (SFopp one) ++ [zero; neg_zero; zero]) /\
  final_mem
    (rc_sort 56 0 26 (init (replicate 24 (SFopp one) ++ [zero; neg_zero; zero])))
    = Some (replicate 24 (SFopp one) ++ [neg_zero; zero; zero]) /\
  replicate 24 (SFopp one) ++ [neg_zero; zero; zero]
    <> replicate 24 (SFopp one) ++ [zero; neg_zero; zero].
Proof.
  split_and!.
  - cbn [replicate app]. repeat constructor.
  - reflexivity.
  - intros Heq. apply (f_equal (fun l => get l 24)) in Heq. discriminate Heq.
Qed.

(** C9, amended: when the range [L..R] is already in non-decreasing
    order, [rc_sort] leaves the array equal to what it was, element for
    element, up to the sign of zeros: each cell is unchanged, or held a zero
    and holds a zero.  The array is left exactly equal when [R - L <= 25],
    and when the range does not hold both [+0.0] and [-0.0]. *)
Theorem rc_sort_sorted_input (st : state) (L R : Z) (fuel : nat) :
  0 <= L -> L <= R + 1 -> R < len (mem st) -> len (mem st) < int_max ->
  (2 * Z.to_nat (R - L + 1) + 2 <= fuel)%nat ->
  sorted (range (mem st) L (R + 1)) ->
  exists st',
    rc_sort fuel L R st = Ok tt st' /\
    Forall2 same_up_to_zero_sign (mem st) (mem st') /\
    (R - L <= 25 \/
     ~ (zero ∈ range (mem st) L (R + 1) /\ neg_zero ∈ range (mem st) L (R + 1)) ->
     mem st' = mem st).
Proof.
  intros HL HLR HR Hmax Hfuel Hsorted.
  pose proof (range_split (mem st) L (R + 1) ltac:(lia) ltac:(lia)) as Hsplit.
  pose proof (length_range (mem st) L (R + 1) ltac:(lia) ltac:(lia)) as Hlen.
  set (pre := take (Z.to_nat L) (mem st)) in *.
  set (mid := range (mem st) L (R + 1)) in *.
  set (post := drop (Z.to_nat (R + 1)) (mem st)) in *.
  assert (Hpre : L = len pre) by (subst pre; rewrite length_take; lia).
  destruct (rc_sort_spec fuel pre mid post st L R Hsplit)
    as ([] & st' & Hrun & mid' & Hmem' & Hperm & Hsorted' & Hsame & _); try lia.
  exists st'. split; [done|]. rewrite Hmem', Hsplit.
  destruct (decide (R - L <= 25)) as [Hsmall|Hbig].
  { rewrite (Hsame Hsmall Hsorted). split; [apply Forall2_same_refl | done]. }
  assert (Hmid : Forall2 same_up_to_zero_sign mid mid').
  { apply sorted_Permutation_same; [done| |done].
    apply Hsorted', sorted_no_nan; [done | lia]. }
  split.
  - apply Forall2_app; [apply Forall2_same_refl|].
    apply Forall2_app; [done | apply Forall2_same_refl].
  - intros [?|Hmix]; [lia|]. do 2 f_equal. symmetry.
    apply Forall2_same_eq; [done|].
    intros x y Hx Hy [?|(s & s' & -> & ->)]; [done|].
    rewrite Hperm in Hy.
    destruct s, s'; try done; destruct Hmix; done.
Qed.

Lemma rc_sort_sorted_input_witness :
  exists st',
    rc_sort 8 0 2 (init [of_Z 1; of_Z 2; of_Z 3]) = Ok tt st' /\
    mem st' = [of_Z 1; of_Z 2; of_Z 3].
Proof.
  destruct (rc_sort_sorted_input (init [of_Z 1; of_Z 2; of_Z 3]) 0 2 8)
    as (st' & Hrun & _ & Hsame);
    [lia | lia | by vm_compute | by vm_compute | by vm_compute
    | repeat constructor |].
  exists st'. split; [exact Hrun|]. apply Hsame. left. lia.
Defined.

(** ** The claims on rc_logsumexp *)

(** C1, as stated, fails at [N = INT_MAX].  On the array of [INT_MAX]
    cells that holds zeros and [1.0] last, [rc_sort] leaves the pivot
    [1.0] in the last cell and calls itself on the range
    [INT_MAX..INT_MAX-1] to its right, where [L + 1] wraps to [INT_MIN]:
    the run stops at the read of [array[INT_MIN]] and [rc_logsumexp]
    returns nothing, with any amount of fuel that the sort could need. *)
Lemma rc_logsumexp_int_max_counterexample :
  len int_max_array = int_max /\
  last int_max_array = Some one /\
  forall fuel, (2 * length int_max_array + 2 <= fuel)%nat ->
    value (@rc_logsumexp coarse_libm fuel int_max (init int_max_array)) = None.
Proof.
  destruct int_max_array_facts as [Hlen Hall]. unfold int_max_array.
  split_and!.
  - rewrite length_app. cbn [length]. lia.
  - apply last_snoc.
  - intros fuel Hfuel. rewrite length_app in Hfuel. cbn [length] in Hfuel.
    rewrite (@rc_logsumexp_int_max coarse_libm
               (replicate (Z.to_nat (int_max - 1)) zero) one _ fuel);
      [reflexivity | reflexivity | exact Hlen | exact Hall | lia].
Qed.

(** C1, amended: on an array of [N] doubles, [1 <= N < INT_MAX],
    [rc_logsumexp] ends and leaves the array [s] sorted in place (a
    permutation of the input, in non-decreasing order when the input holds
    no NaN); when its last element [s[N-1]] is not negative infinity, the
    result is [s[N-1] + log(sum + 1.0)], where [sum] adds
    [exp(s[i] - s[N-1])] over the first [N - 1] elements of [s] only, from
    [0.0] and in their order. *)
Theorem rc_logsumexp_value `{Libm} (st : state) (N : Z) (fuel : nat) :
  N = len (mem st) -> 1 <= N -> N < int_max ->
  (2 * Z.to_nat N + 2 <= fuel)%nat ->
  exists v st',
    rc_logsumexp fuel N st = Ok v st' /\
    mem st' ≡ₚ mem st /\
    (no_nan (mem st) -> sorted (mem st')) /\
    (get (mem st') (N - 1) <> neg_infinity ->
     v = dadd (get (mem st') (N - 1))
           (log (dadd (fold_left (lse_add (get (mem st') (N - 1)))
                         (take (Z.to_nat (N - 1)) (mem st')) zero)
                   one))).
Proof.
  intros HN HN1 Hmax Hfuel.
  destruct (rc_logsumexp_spec st N fuel) as (v & st' & Hrun & Hperm & Hsorted & Hv);
    [done | done | done | lia |].
  exists v, st'. split_and!; try done.
  intros Hinf. destruct (deq neg_infinity _) eqn:Heq.
  - by apply deq_neg_infinity in Heq.
  - by destruct Hv.
Qed.

Lemma rc_logsumexp_value_witness :
  exists v st',
    @rc_logsumexp coarse_libm 8 3 (init [of_Z 3; of_Z 1; of_Z 2]) = Ok v st' /\
    sorted (mem st').
Proof.
  destruct (@rc_logsumexp_value coarse_libm (init [of_Z 3; of_Z 1; of_Z 2]) 3 8)
    as (v & st' & Hrun & _ & Hsorted & _);
    [reflexivity | lia | by vm_compute | by vm_compute |].
  exists v, st'. split; [exact Hrun|]. apply Hsorted. repeat constructor.
Defined.

Lemma rc_logsumexp_empty `{Libm} (st : state) (fuel : nat) :
  mem st = [] -> (2 <= fuel)%nat ->
  rc_logsumexp fuel 0 st = OutOfBounds (-1).
Proof.
  intros Hmem Hfuel. unfold rc_logsumexp. unwrap.
  unfold bind at 1. rewrite rc_sort_no_op by (unfold int_min, int_max; lia).
  unfold bind, load. by rewrite in_bounds_false by lia.
Qed.

(** C3, as stated, fails at [length = INT_MAX]: on the array above, of
    that length, [rc_logsumexp] stops at an access out of bounds, the read
    of [array[INT_MIN]]. *)
Lemma rc_logsumexp_bounds_int_max_counterexample :
  1 <= int_max /\
  len int_max_array = int_max /\
  int_min < 0 /\
  forall fuel, (2 * length int_max_array + 2 <= fuel)%nat ->
    @rc_logsumexp coarse_libm fuel int_max (init int_max_array) =
      OutOfBounds int_min.
Proof.
  destruct int_max_array_facts as [Hlen Hall]. unfold int_max_array.
  split_and!; [done| |done|].
  - rewrite length_app. cbn [length]. lia.
  - intros fuel Hfuel. rewrite length_app in Hfuel. cbn [length] in Hfuel.
    apply (@rc_logsumexp_int_max coarse_libm
             (replicate (Z.to_nat (int_max - 1)) zero) one _ fuel);
      [reflexivity | exact Hlen | exact Hall | lia].
Qed.

(** C3, amended: when [length], [1 <= length < INT_MAX], is the length of
    the array, [rc_logsumexp] ends without any access out of bounds, and
    every cell that it read or wrote has an index from [0] to
    [length - 1]; when [length = 0], it stops at the read of
    [array[-1]]. *)
Theorem rc_logsumexp_bounds `{Libm} (st : state) (N : Z) (fuel : nat) :
  N = len (mem st) -> N < int_max -> (2 * Z.to_nat N + 2 <= fuel)%nat ->
  (1 <= N ->
   exists v st', rc_logsumexp fuel N st = Ok v st' /\ steps (within N) st st') /\
  (N = 0 -> rc_logsumexp fuel N st = OutOfBounds (-1)).
Proof.
  intros HN Hmax Hfuel. split.
  - intros HN1.
    destruct (rc_logsumexp_spec st N fuel) as (v & st' & Hrun & _ & _ & Hv);
      [done | done | done | lia |].
    exists v, st'. split; [done|].
    destruct (deq neg_infinity _); destruct Hv as [_ Hst]; [|done].
    eapply steps_impl; [apply array_access_within | done].
  - intros ->. apply rc_logsumexp_empty; [|lia].
    destruct (mem st); [done | cbn in HN; lia].
Qed.

Lemma rc_logsumexp_bounds_witness :
  (exists v st',
     @rc_logsumexp coarse_libm 8 3 (init [of_Z 3; of_Z 1; of_Z 2]) = Ok v st' /\
     steps (within 3) (init [of_Z 3; of_Z 1; of_Z 2]) st') /\
  @rc_logsumexp coarse_libm 2 0 (init []) = OutOfBounds (-1).
Proof.
  split.
  - apply (@rc_logsumexp_bounds coarse_libm (init [of_Z 3; of_Z 1; of_Z 2]) 3 8);
      [reflexivity | by vm_compute | by vm_compute | lia].
  - apply (@rc_logsumexp_bounds coarse_libm (init []) 0 2);
      [reflexivity | by vm_compute | by vm_compute | reflexivity].
Defined.

(** C4: when every element of the array ([N >= 1] cells) is negative
    infinity, [rc_logsumexp] returns negative infinity and its trace holds
    accesses to the array only: neither [exp] nor [log] was called.
    [rc_logsumexp_pair(-inf, -inf)] returns negative infinity, in the state
    it started from (no call either), and [rc_logsumexp_pair(-inf, 5.0)]
    returns 5.0 with a C library that follows Annex F. *)
Theorem rc_logsumexp_neg_infinity `{Libm} (st st0 : state) (N : Z) (fuel : nat) :
  N = len (mem st) -> 1 <= N -> N < int_max ->
  (2 * Z.to_nat N + 2 <= fuel)%nat ->
  Forall (fun x => x = neg_infinity) (mem st) ->
  (exists st',
     rc_logsumexp fuel N st = Ok neg_infinity st' /\
     steps (array_access N) st st') /\
  rc_logsumexp_pair neg_infinity neg_infinity st0 = Ok neg_infinity st0 /\
  (annex_f _ ->
   value (rc_logsumexp_pair neg_infinity (of_Z 5) st0) = Some (of_Z 5)).
Proof.
  intros HN HN1 Hmax Hfuel Hall. split_and!.
  - destruct (rc_logsumexp_spec st N fuel) as (v & st' & Hrun & Hperm & _ & Hv);
      [done | done | done | lia |].
    assert (Hlast : get (mem st') (N - 1) = neg_infinity).
    { rewrite <- Hperm in Hall. rewrite Forall_lookup in Hall.
      apply (Hall (Z.to_nat (N - 1))), lookup_get.
      rewrite (Permutation_length Hperm). lia. }
    rewrite Hlast in Hv. destruct Hv as [-> Hst]. by exists st'.
  - reflexivity.
  - intros [Hexp _ Hlog _ _]. unfold rc_logsumexp_pair, bind, call_exp, call_log.
    cbn [deq neg_infinity infinity SFopp SFeqb SFcompare negb andb].
    change (dgt (of_Z 5) (S754_infinity true)) with true. cbn [value ret].
    change (dsub (S754_infinity true) (of_Z 5)) with neg_infinity.
    rewrite Hexp. change (dadd one zero) with one. by rewrite Hlog.
Qed.

Lemma rc_logsumexp_neg_infinity_witness :
  exists st',
    @rc_logsumexp coarse_libm 8 3 (init (replicate 3 neg_infinity))
      = Ok neg_infinity st' /\
    value (@rc_logsumexp_pair coarse_libm neg_infinity (of_Z 5) (init []))
      = Some (of_Z 5).
Proof.
  destruct (@rc_logsumexp_neg_infinity coarse_libm
              (init (replicate 3 neg_infinity)) (init []) 3 8)
    as ((st' & Hrun & _) & _ & Hpair);
    [reflexivity | lia | by vm_compute | by vm_compute | repeat constructor |].
  exists st'. split; [exact Hrun|]. apply Hpair, coarse_libm_annex_f.
Defined.

(** ** One element, two elements *)

(** On an array of one cell [rc_sort] has nothing to move, the summation
    has no round, and [log] is called on [0.0 + 1.0]. *)
Lemma rc_logsumexp_one_cell `{Libm} (x : double) (t : list event) (fuel : nat) :
  deq neg_infinity x = false ->
  rc_logsumexp (S (S fuel)) 1 {| mem := [x]; trace := t |} =
    Ok (dadd x (log one))
       {| mem := [x]; trace := CallLog one :: Read 0 :: Read 0 :: t |}.
Proof.
  intros Hx. unfold rc_logsumexp.
  change (rc_sort (S (S fuel)) 0 (int_sub 1 1)) with (@ret unit tt).
  change (int_sub 1 1) with 0.
  unfold bind at 1. unfold ret at 1.
  unfold bind at 1. unfold load at 1.
  change (in_bounds (mem {| mem := [x]; trace := t |}) 0) with true.
  change (get (mem {| mem := [x]; trace := t |}) 0) with x.
  cbn iota. rewrite Hx. reflexivity.
Qed.

(** C5, as stated, fails at the finite double [-0.0]: with [log(1.0)]
    being [+0.0], the call returns [-0.0 + +0.0], which is [+0.0], and
    that is not the same double as [-0.0]. *)
Lemma rc_logsumexp_neg_zero_counterexample :
  is_finite neg_zero = true /\
  (forall lm : Libm,
     @log lm one = zero ->
     value (@rc_logsumexp lm 4 1 (init [neg_zero])) = Some zero) /\
  zero <> neg_zero.
Proof.
  split_and!; [done| |done].
  intros lm Hlog. unfold init. rewrite rc_logsumexp_one_cell by done.
  cbn [value]. by rewrite Hlog.
Qed.

(** C5, amended: for every finite [x], [rc_logsumexp] on the array [x] of
    length 1 returns a double that compares equal to [x] ([==]), and that
    is [x] itself unless [x] is [-0.0], for which it is [+0.0]; the
    summation loop has no round (no call of [exp]) and [log] is called
    once, on [0.0 + 1.0 = 1.0], whose logarithm is [+0.0] (Annex F). *)
Theorem rc_logsumexp_singleton `{Libm} (x : double) (st : state) (fuel : nat) :
  log one = zero -> is_finite x = true -> mem st = [x] -> (2 <= fuel)%nat ->
  exists v,
    rc_logsumexp fuel 1 st =
      Ok v {| mem := [x];
              trace := CallLog one :: Read 0 :: Read 0 :: trace st |} /\
    deq v x = true /\
    (x <> neg_zero -> v = x) /\
    (x = neg_zero -> v = zero).
Proof.
  intros Hlog Hfin Hmem Hfuel.
  destruct fuel as [|[|fuel]]; [lia|lia|].
  destruct st as [m t]. cbn [mem trace] in *. subst m.
  rewrite rc_logsumexp_one_cell by (by destruct x as [?|[]| |]).
  rewrite Hlog. eexists. split; [reflexivity|].
  destruct x as [[]| | |s m e]; try discriminate Hfin; split_and!;
    try done; try (by intros []).
  apply deq_refl. done.
Qed.

Lemma rc_logsumexp_singleton_witness :
  exists st',
    @rc_logsumexp coarse_libm 2 1 (init [of_Z 5]) = Ok (of_Z 5) st'.
Proof.
  destruct (@rc_logsumexp_singleton coarse_libm (of_Z 5) (init [of_Z 5]) 2)
    as (v & Hrun & _ & Hv & _); [reflexivity | reflexivity | reflexivity | lia |].
  rewrite (Hv ltac:(discriminate)) in Hrun. eexists. exact Hrun.
Defined.

(** [rc_logsumexp_pair] on two zeros, and [rc_logsumexp] on an array of
    two zeros, return [log(1.0 + 1.0)]. *)
Section TwoElements.
Context `{Libm} (Hlm : annex_f _).

Lemma lse_pair_value (lo hi : double) :
  dadd hi (log (dadd (dadd zero (exp (dsub lo hi))) one)) =
    dadd hi (log (dadd one (exp (dsub lo hi)))).
Proof.
  change zero with (S754_zero false).
  rewrite dadd_zero_l by apply (exp_not_neg_zero _ Hlm).
  by rewrite (dadd_comm one).
Qed.

Lemma lse_zeros_value (s s' : bool) :
  dadd (S754_zero s) (log (dadd one (exp (dsub (S754_zero s') (S754_zero s)))))
    = log (dadd one one).
Proof.
  destruct (dsub_zeros s' s) as [s'' ->].
  rewrite (exp_zero _ Hlm).
  apply dadd_zero_l, (log_not_neg_zero _ Hlm).
Qed.

Lemma rc_logsumexp_pair_value (a b : double) (st : state) :
  is_finite a = true -> is_finite b = true ->
  value (rc_logsumexp_pair a b st) =
    Some (if dlt a b then dadd b (log (dadd one (exp (dsub a b))))
          else dadd a (log (dadd one (exp (dsub b a))))).
Proof.
  intros Ha Hb. unfold rc_logsumexp_pair.
  replace (deq neg_infinity a) with false by (by destruct a as [?|[]| |]).
  cbn [andb]. rewrite dgt_dlt. by destruct (dlt a b).
Qed.
End TwoElements.

(** C6: for finite [a] and [b], and a C library that follows Annex F,
    [rc_logsumexp_pair(a, b)] and [rc_logsumexp] on the array [a; b] of
    length 2 return the same double: both compute
    [hi + log(1.0 + exp(lo - hi))] with [hi] the larger of the two. *)
Theorem rc_logsumexp_pair_agrees `{Libm}
    (a b : double) (st st2 : state) (fuel : nat) :
  annex_f _ -> is_finite a = true -> is_finite b = true ->
  mem st2 = [a; b] -> (6 <= fuel)%nat ->
  exists v,
    value (rc_logsumexp_pair a b st) = Some v /\
    value (rc_logsumexp fuel 2 st2) = Some v.
Proof.
  intros Hlm Ha Hb Hmem Hfuel.
  assert (Hna : is_nan a = false) by (by destruct a).
  assert (Hnb : is_nan b = false) by (by destruct b).
  destruct (rc_logsumexp_spec st2 2 fuel) as (v & st' & Hrun & Hperm & Hsorted & Hv);
    [by rewrite Hmem | lia | by vm_compute | rewrite Hmem; cbn [length]; lia |].
  rewrite Hrun, rc_logsumexp_pair_value by done. cbn [value].
  rewrite Hmem in Hperm, Hsorted.
  specialize (Hsorted ltac:(by repeat constructor)).
  symmetry in Hperm.
  apply Permutation_length_2_inv in Hperm as [Hs|Hs]; rewrite Hs in Hv, Hsorted;
    apply StronglySorted_cons in Hsorted as [[Hle _]%Forall_cons _];
    change (2 - 1) with 1 in Hv; change (Z.to_nat 1) with 1%nat in Hv;
    cbn [take] in Hv.
  - change (get [a; b] 1) with b in Hv.
    replace (deq neg_infinity b) with false in Hv by (by destruct b as [?|[]| |]).
    destruct Hv as [-> _]. unfold lse_value. cbn [fold_left]. unfold lse_add.
    rewrite lse_pair_value by done.
    destruct (dlt a b) eqn:Hab; [by eexists|].
    eexists. split; [|reflexivity]. f_equal.
    apply not_dlt_dle in Hab; [|done..].
    destruct (dle_antisym _ _ Hle Hab) as [->|(s & s' & -> & ->)]; [done|].
    by rewrite !lse_zeros_value.
  - change (get [b; a] 1) with a in Hv.
    replace (deq neg_infinity a) with false in Hv by (by destruct a as [?|[]| |]).
    destruct Hv as [-> _]. unfold lse_value. cbn [fold_left]. unfold lse_add.
    rewrite lse_pair_value by done.
    rewrite (dle_not_dlt _ _ Hle). by eexists.
Qed.

Lemma rc_logsumexp_pair_agrees_witness :
  exists v,
    value (@rc_logsumexp_pair coarse_libm (of_Z 1) (of_Z 2) (init [])) = Some v /\
    value (@rc_logsumexp coarse_libm 6 2 (init [of_Z 1; of_Z 2])) = Some v.
Proof.
  apply (@rc_logsumexp_pair_agrees coarse_libm);
    [apply coarse_libm_annex_f | reflexivity | reflexivity | reflexivity | lia].
Defined.

(** C10: for [a] and [b] other than NaN, and a C library that follows
    Annex F, [rc_logsumexp_pair(a, b)] and [rc_logsumexp_pair(b, a)] return
    the same double. *)
Theorem rc_logsumexp_pair_comm `{Libm} (a b : double) (st : state) :
  annex_f _ -> is_nan a = false -> is_nan b = false ->
  value (rc_logsumexp_pair a b st) = value (rc_logsumexp_pair b a st).
Proof.
  intros Hlm Ha Hb. unfold rc_logsumexp_pair.
  rewrite (andb_comm (deq neg_infinity b)).
  destruct (deq neg_infinity a && deq neg_infinity b); [done|].
  rewrite !dgt_dlt.
  destruct (dlt a b) eqn:Hab, (dlt b a) eqn:Hba; try reflexivity.
  - apply dlt_asym in Hab. congruence.
  - apply not_dlt_dle in Hab, Hba; try done.
    destruct (dle_antisym _ _ Hab Hba) as [->|(s & s' & -> & ->)]; [done|].
    unfold bind, call_exp, call_log, ret. cbn [value]. f_equal.
    by rewrite !lse_zeros_value.
Qed.

Lemma rc_logsumexp_pair_comm_witness :
  value (@rc_logsumexp_pair coarse_libm (of_Z 1) neg_infinity (init [])) =
  value (@rc_logsumexp_pair coarse_libm neg_infinity (of_Z 1) (init [])).
Proof.
  apply (@rc_logsumexp_pair_comm coarse_libm);
    [apply coarse_libm_annex_f | reflexivity | reflexivity].
Defined.

(** * Further properties *)

(** ** rc_sort: footprint and insertion branch *)

(** [rc_sort] on a range given by its bounds: what it leaves in the array
    and which cells it touched. *)
Lemma rc_sort_on_range (st : state) (L R : Z) (fuel : nat) :
  0 <= L -> L <= R + 1 -> R < len (mem st) -> len (mem st) < int_max ->
  (2 * Z.to_nat (R - L + 1) + 2 <= fuel)%nat ->
  exists st' mid',
    rc_sort fuel L R st = Ok tt st' /\
    mem st' = take (Z.to_nat L) (mem st) ++ mid' ++
                drop (Z.to_nat (R + 1)) (mem st) /\
    mid' ≡ₚ range (mem st) L (R + 1) /\
    (no_nan (range (mem st) L (R + 1)) -> sorted mid') /\
    (R - L <= 25 -> mid' = insertion_sort (range (mem st) L (R + 1))) /\
    range_steps L R st st'.
Proof.
  intros HL HLR HR Hmax Hfuel.
  pose proof (range_split (mem st) L (R + 1) ltac:(lia) ltac:(lia)) as Hsplit.
  pose proof (length_range (mem st) L (R + 1) ltac:(lia) ltac:(lia)) as Hlen.
  set (pre := take (Z.to_nat L) (mem st)) in *.
  set (mid := range (mem st) L (R + 1)) in *.
  set (post := drop (Z.to_nat (R + 1)) (mem st)) in *.
  assert (Hpre : L = len pre) by (subst pre; rewrite length_take; lia).
  destruct (rc_sort_range fuel pre mid post st L R Hsplit)
    as ([] & st' & Hrun & mid' & Hmem' & Hperm & Hsorted & _ & Hins & Hst);
    try lia.
  by exists st', mid'.
Qed.

(** X1: on a range [L..R] within the bounds of the array, [rc_sort] ends
    and every event that it adds to the trace is a read or a write of one
    of the cells [L] to [R]: it touches no cell outside of the range, and
    calls nothing. *)
Theorem rc_sort_footprint (st : state) (L R : Z) (fuel : nat) :
  0 <= L -> L <= R + 1 -> R < len (mem st) -> len (mem st) < int_max ->
  (2 * Z.to_nat (R - L + 1) + 2 <= fuel)%nat ->
  exists st' evs,
    rc_sort fuel L R st = Ok tt st' /\
    trace st' = evs ++ trace st /\
    Forall (range_access L R) evs.
Proof.
  intros HL HLR HR Hmax Hfuel.
  destruct (rc_sort_on_range st L R fuel)
    as (st' & mid' & Hrun & _ & _ & _ & _ & _ & evs & Htr & Hevs); try done.
  by exists st', evs.
Qed.

Lemma rc_sort_footprint_witness :
  exists st' evs,
    rc_sort 8 1 3 (init [of_Z 9; of_Z 3; of_Z 1; of_Z 2; of_Z 0]) = Ok tt st' /\
    trace st' = evs ++ [] /\
    Forall (range_access 1 3) evs.
Proof.
  apply (rc_sort_footprint (init [of_Z 9; of_Z 3; of_Z 1; of_Z 2; of_Z 0]) 1 3 8);
    [lia | lia | by vm_compute | by vm_compute | by vm_compute].
Defined.

(** X2: in the insertion branch, [R - L <= 25], [rc_sort] leaves in the
    range the list that [insertion_sort] makes of it: each element in turn
    is moved to the left past the elements that it is less than.  This
    holds for every content of the range, NaN included; the cells outside
    of the range are as they were. *)
Theorem rc_sort_insertion_sort (st : state) (L R : Z) (fuel : nat) :
  0 <= L -> L <= R + 1 -> R < len (mem st) -> len (mem st) < int_max ->
  R - L <= 25 ->
  (2 * Z.to_nat (R - L + 1) + 2 <= fuel)%nat ->
  final_mem (rc_sort fuel L R st) =
    Some (take (Z.to_nat L) (mem st) ++
          insertion_sort (range (mem st) L (R + 1)) ++
          drop (Z.to_nat (R + 1)) (mem st)).
Proof.
  intros HL HLR HR Hmax Hsmall Hfuel.
  destruct (rc_sort_on_range st L R fuel)
    as (st' & mid' & Hrun & Hmem & _ & _ & Hins & _); try done.
  rewrite Hrun. cbn [final_mem]. by rewrite Hmem, Hins.
Qed.

Lemma rc_sort_insertion_sort_witness :
  final_mem (rc_sort 8 1 3 (init [of_Z 9; nan; of_Z 1; of_Z 0; of_Z 0])) =
    Some [of_Z 9; nan; of_Z 0; of_Z 1; of_Z 0].
Proof.
  apply (rc_sort_insertion_sort (init [of_Z 9; nan; of_Z 1; of_Z 0; of_Z 0]) 1 3 8);
    [lia | lia | by vm_compute | by vm_compute | lia | by vm_compute].
Defined.

(** Two doubles that are equal to the same double are not apart. *)
Lemma dlt_deq_apart x y z :
  dlt x y = true -> deq x z = true -> deq y z = true -> False.
Proof.
  intros Hlt Hx Hy.
  destruct (dlt_not_nan _ _ Hlt) as [Hnx Hny].
  assert (Hnz : is_nan z = false) by (by destruct x, z).
  apply deq_same in Hx, Hy; try done.
  assert (Hk : key x = key y).
  { destruct Hx as [->|(s1 & s2 & -> & ->)], Hy as [->|(s3 & s4 & -> & E)];
      try done; try (by inv E); by subst. }
  rewrite dlt_key, Hk, kcmp_refl in Hlt; done.
Qed.

Lemma filter_insert_from_right (z x : double) (r : list double) :
  List.filter (fun y => deq y z) (reverse (insert_from_right x r)) =
  List.filter (fun y => deq y z) (reverse r ++ [x]).
Proof.
  induction r as [|y r IH]; [done|].
  cbn [insert_from_right]. destruct (dlt x y) eqn:Hlt; [|by rewrite reverse_cons].
  rewrite !reverse_cons, !List.filter_app, IH, List.filter_app, <- !app_assoc.
  f_equal. cbn [List.filter].
  destruct (deq x z) eqn:Hx, (deq y z) eqn:Hy; try done.
  destruct (dlt_deq_apart x y z); done.
Qed.

Lemma filter_insertion_sort (z : double) (l : list double) :
  List.filter (fun y => deq y z) (insertion_sort l) =
  List.filter (fun y => deq y z) l.
Proof.
  unfold insertion_sort.
  enough (Hgen : forall acc,
    List.filter (fun y => deq y z) (fold_left (fun acc x => insert x acc) l acc) =
    List.filter (fun y => deq y z) (acc ++ l)) by apply (Hgen []).
  induction l as [|x l IH]; intros acc; [by rewrite app_nil_r|].
  cbn [fold_left]. rewrite IH, !List.filter_app. unfold insert.
  rewrite filter_insert_from_right, reverse_involutive, List.filter_app.
  cbn [List.filter]. rewrite <- app_assoc. f_equal.
  by destruct (deq x z).
Qed.

(** X3: the insertion branch is stable.  For every [z], the elements of
    the range that compare equal to [z] are, after [rc_sort], in the order
    they were in before; zeros of both signs keep their relative
    order. *)
Theorem rc_sort_insertion_stable (st : state) (L R : Z) (fuel : nat) (z : double) :
  0 <= L -> L <= R + 1 -> R < len (mem st) -> len (mem st) < int_max ->
  R - L <= 25 ->
  (2 * Z.to_nat (R - L + 1) + 2 <= fuel)%nat ->
  exists st',
    rc_sort fuel L R st = Ok tt st' /\
    List.filter (fun y => deq y z) (range (mem st') L (R + 1)) =
    List.filter (fun y => deq y z) (range (mem st) L (R + 1)).
Proof.
  intros HL HLR HR Hmax Hsmall Hfuel.
  destruct (rc_sort_on_range st L R fuel)
    as (st' & mid' & Hrun & Hmem & Hperm & _ & Hins & _); try done.
  exists st'. split; [done|].
  pose proof (Permutation_length Hperm) as Hplen.
  pose proof (length_range (mem st) L (R + 1) ltac:(lia) ltac:(lia)) as Hlen.
  destruct (range_app3 (take (Z.to_nat L) (mem st)) mid'
              (drop (Z.to_nat (R + 1)) (mem st)) L (R + 1)) as (_ & Hr & _).
  { rewrite length_take. lia. }
  { rewrite length_take. lia. }
  rewrite Hmem, Hr, Hins by done. apply filter_insertion_sort.
Qed.

Lemma rc_sort_insertion_stable_witness :
  exists st',
    rc_sort 8 0 2 (init [neg_zero; of_Z 1; zero]) = Ok tt st' /\
    List.filter (fun y => deq y zero) (range (mem st') 0 3) = [neg_zero; zero].
Proof.
  apply (rc_sort_insertion_stable (init [neg_zero; of_Z 1; zero]) 0 2 8 zero);
    [lia | lia | by vm_compute | by vm_compute | lia | by vm_compute].
Defined.

(** ** rc_logsumexp: lengths, footprint and calls *)

(** [rc_logsumexp] on the first [N] cells of an array, by its bounds. *)
Lemma rc_logsumexp_on_prefix `{Libm} (st : state) (N : Z) (fuel : nat) :
  1 <= N -> N <= len (mem st) -> N < int_max ->
  (2 * Z.to_nat N + 2 <= fuel)%nat ->
  exists v st' s,
    rc_logsumexp fuel N st = Ok v st' /\
    mem st' = s ++ drop (Z.to_nat N) (mem st) /\
    s ≡ₚ take (Z.to_nat N) (mem st) /\
    (no_nan (take (Z.to_nat N) (mem st)) -> sorted s) /\
    (N <= 26 -> s = insertion_sort (take (Z.to_nat N) (mem st))) /\
    steps (within N) st st' /\
    if deq neg_infinity (get s (N - 1))
    then v = neg_infinity /\ steps (array_access N) st st'
    else v = lse_value (take (Z.to_nat (N - 1)) s) (get s (N - 1)) /\
         calls (trace st') =
           calls (trace st) ++
           map (fun x => CallExp (dsub x (get s (N - 1))))
             (take (Z.to_nat (N - 1)) s) ++
           [CallLog (dadd (fold_left (lse_add (get s (N - 1)))
                             (take (Z.to_nat (N - 1)) s) zero) one)].
Proof.
  intros HN1 HN Hmax Hfuel.
  destruct (rc_logsumexp_prefix_spec (take (Z.to_nat N) (mem st))
              (drop (Z.to_nat N) (mem st)) st N fuel)
    as (v & st' & Hrun & s & Hs); rewrite ?length_take; try lia.
  { by rewrite take_drop. }
  by exists v, st', s.
Qed.

(** X4: [length] may be less than the size of the array, and the array
    of any size.  With [1 <= length < INT_MAX] and [length] no more than
    the size of the array, [rc_logsumexp] ends, reads and writes cells of
    index [0] to [length - 1] only, leaves the cells from [length] on as
    they were and a permutation of the first [length] cells in their place
    (in non-decreasing order when they hold no NaN); when the last of them
    is not negative infinity, the result is the value of C1 on these
    cells. *)
Theorem rc_logsumexp_prefix `{Libm} (st : state) (N : Z) (fuel : nat) :
  1 <= N -> N <= len (mem st) -> N < int_max ->
  (2 * Z.to_nat N + 2 <= fuel)%nat ->
  exists v st',
    rc_logsumexp fuel N st = Ok v st' /\
    steps (within N) st st' /\
    drop (Z.to_nat N) (mem st') = drop (Z.to_nat N) (mem st) /\
    take (Z.to_nat N) (mem st') ≡ₚ take (Z.to_nat N) (mem st) /\
    (no_nan (take (Z.to_nat N) (mem st)) ->
     sorted (take (Z.to_nat N) (mem st'))) /\
    (get (mem st') (N - 1) <> neg_infinity ->
     v = lse_value (take (Z.to_nat (N - 1)) (mem st')) (get (mem st') (N - 1))).
Proof.
  intros HN1 HN Hmax Hfuel.
  destruct (rc_logsumexp_on_prefix st N fuel)
    as (v & st' & s & Hrun & Hmem & Hperm & Hsorted & _ & Hst & Hv); try done.
  exists v, st'.
  pose proof (Permutation_length Hperm) as Hlen. rewrite length_take in Hlen.
  assert (Hs : Z.to_nat N = length s) by lia.
  assert (Htake : take (Z.to_nat N) (mem st') = s).
  { by rewrite Hmem, Hs, take_app_length. }
  assert (Hget : get (mem st') (N - 1) = get s (N - 1)).
  { rewrite Hmem. unfold get. rewrite lookup_app_l; [done|lia]. }
  assert (Htake1 : take (Z.to_nat (N - 1)) (mem st') = take (Z.to_nat (N - 1)) s).
  { rewrite Hmem, take_app_le; [done|lia]. }
  rewrite Htake, Hget, Htake1. split_and!; try done.
  - by rewrite Hmem, Hs, drop_app_length.
  - intros Hinf. destruct (deq neg_infinity _) eqn:Heq.
    + by apply deq_neg_infinity in Heq.
    + by destruct Hv.
Qed.

Lemma rc_logsumexp_prefix_witness :
  exists v st',
    @rc_logsumexp coarse_libm 6 2 (init [of_Z 3; of_Z 1; of_Z 2; of_Z 0]) = Ok v st' /\
    steps (within 2) (init [of_Z 3; of_Z 1; of_Z 2; of_Z 0]) st' /\
    drop 2 (mem st') = [of_Z 2; of_Z 0].
Proof.
  destruct (@rc_logsumexp_prefix coarse_libm
              (init [of_Z 3; of_Z 1; of_Z 2; of_Z 0]) 2 6)
    as (v & st' & Hrun & Hst & Hdrop & _);
    [lia | by vm_compute | by vm_compute | by vm_compute |].
  by exists v, st'.
Defined.

(** X5: with a [length] that is zero or negative (above [INT_MIN], so
    that [length - 1] does not overflow), whatever the array holds,
    [rc_sort] has nothing to do and [rc_logsumexp] stops at the read of
    [array[length - 1]], a negative index. *)
Theorem rc_logsumexp_nonpositive_length `{Libm} (st : state) (N : Z) (fuel : nat) :
  int_min < N -> N <= 0 -> (2 <= fuel)%nat ->
  rc_logsumexp fuel N st = OutOfBounds (N - 1).
Proof.
  intros Hmin HN Hfuel. unfold rc_logsumexp.
  unfold int_sub. rewrite int_wrap_id by (unfold int_min, int_max in *; lia).
  unfold bind at 1.
  rewrite rc_sort_no_op by (unfold int_min, int_max in *; lia).
  unfold bind, load. by rewrite in_bounds_false by lia.
Qed.

Lemma rc_logsumexp_nonpositive_length_witness :
  @rc_logsumexp coarse_libm 2 (-3) (init [of_Z 3; of_Z 1]) = OutOfBounds (-4).
Proof.
  apply (@rc_logsumexp_nonpositive_length coarse_libm (init [of_Z 3; of_Z 1]) (-3) 2);
    [by vm_compute | lia | lia].
Defined.



(** ** rc_logsumexp: the order of the input, infinities *)

Section LogSumExpValue.
Context `{Libm} (Hlm : annex_f _).





End LogSumExpValue.




Lemma sorted_last s x y : sorted (s ++ [x]) -> y ∈ s -> dle y x = true.
Proof.
  intros Hs Hy. apply StronglySorted_app in Hs as (Hsx & _ & _).
  apply Hsx; [done|]. by apply list_elem_of_singleton.
Qed.

Lemma dle_neg_infinity x : dle x neg_infinity = true -> x = neg_infinity.
Proof. destruct x as [[]|[]| |[]]; intros H; try reflexivity; discriminate H. Qed.

Lemma dle_infinity x : dle infinity x = true -> x = infinity.
Proof. destruct x as [[]|[]| |[]]; intros H; try reflexivity; discriminate H. Qed.


(** A sorted list that holds a positive infinity ends with it. *)
Lemma sorted_infinity_last s a :
  sorted s -> s ≡ₚ infinity :: a ->
  exists s', s = s' ++ [infinity] /\ s' ≡ₚ a.
Proof.
  intros Hs Hperm. destruct (list_snoc_case s) as [->|(s' & x & ->)].
  { by apply Permutation_nil_cons in Hperm. }
  assert (Hin : infinity ∈ s' ++ [x]) by (rewrite Hperm; left).
  assert (Hx : x = infinity).
  { apply elem_of_app in Hin as [Hin|Hin].
    - by apply dle_infinity, (sorted_last s').
    - by apply list_elem_of_singleton in Hin. }
  subst x. exists s'. split; [done|].
  rewrite <- Permutation_cons_append in Hperm.
  by apply (Permutation_cons_inv Hperm).
Qed.







Lemma dadd_nan_r x : dadd x nan = nan.
Proof. by destruct x. Qed.

(** X10: when two cells or more hold positive infinity and no cell a
    NaN, [rc_logsumexp] returns NaN, not positive infinity: the last round
    of the summation computes [exp(inf - inf)].  The C library is assumed
    to return NaN on NaN. *)
Theorem rc_logsumexp_two_infinities `{Libm}
    (st : state) (rest : list double) (N : Z) (fuel : nat) :
  exp nan = nan -> log nan = nan ->
  N = len (mem st) -> N < int_max ->
  (2 * Z.to_nat N + 2 <= fuel)%nat ->
  mem st ≡ₚ infinity :: infinity :: rest ->
  no_nan rest ->
  value (rc_logsumexp fuel N st) = Some nan.
Proof.
  intros Hexp Hlog HN Hmax Hfuel Hperm Hnan.
  pose proof (Permutation_length Hperm) as Hlen. cbn [length] in Hlen.
  assert (Hnan1 : no_nan (mem st)).
  { apply (no_nan_Permutation _ _ (symmetry Hperm)). by repeat constructor. }
  destruct (rc_logsumexp_spec st N fuel)
    as (v & st' & Hrun & Hperm' & Hsorted & Hv); [done|lia|done|lia|].
  rewrite Hrun. cbn [value]. f_equal.
  specialize (Hsorted Hnan1).
  destruct (sorted_infinity_last (mem st') (infinity :: rest))
    as (s & Hmem & Hs); [done | by rewrite Hperm' |].
  assert (Hsorted' : sorted s).
  { rewrite Hmem in Hsorted. by apply StronglySorted_app in Hsorted as (_ & ? & _). }
  destruct (sorted_infinity_last s rest) as (s0 & -> & Hs0); [done|done|].
  pose proof (Permutation_length Hs0) as Hlens.
  assert (Hget : get (mem st') (N - 1) = infinity).
  { rewrite Hmem. apply get_middle. list_len. }
  assert (Htake : take (Z.to_nat (N - 1)) (mem st') = s0 ++ [infinity]).
  { rewrite Hmem.
    replace (Z.to_nat (N - 1)) with (length (s0 ++ [infinity])) by list_len.
    by rewrite take_app_length. }
  rewrite Hget, Htake in Hv. cbn in Hv. destruct Hv as [-> _].
  unfold lse_value. rewrite fold_left_app. cbn [fold_left]. unfold lse_add at 1.
  change (dsub infinity infinity) with nan.
  rewrite Hexp, dadd_nan_r. change (dadd nan one) with nan. by rewrite Hlog.
Qed.

Lemma rc_logsumexp_two_infinities_witness :
  value (@rc_logsumexp coarse_libm 8 3 (init [infinity; of_Z 3; infinity]))
    = Some nan.
Proof.
  apply (@rc_logsumexp_two_infinities coarse_libm
           (init [infinity; of_Z 3; infinity]) [of_Z 3] 3 8);
    [reflexivity | reflexivity | reflexivity | by vm_compute | by vm_compute
    | apply perm_skip, Permutation_swap | by repeat constructor].
Defined.

(** ** rc_logsumexp_pair: infinities, NaN, and the array of two cells *)

(** The two branches of [rc_logsumexp_pair] in one: [hi] is [b] when
    [b > a], and [a] otherwise. *)
Lemma rc_logsumexp_pair_run `{Libm} (a b : double) (st : state) :
  rc_logsumexp_pair a b st =
    if deq neg_infinity a && deq neg_infinity b then Ok neg_infinity st
    else
      let lo := if dgt b a then a else b in
      let hi := if dgt b a then b else a in
      Ok (dadd hi (log (dadd one (exp (dsub lo hi)))))
         {| mem := mem st;
            trace := CallLog (dadd one (exp (dsub lo hi))) ::
                     CallExp (dsub lo hi) :: trace st |}.
Proof.
  unfold rc_logsumexp_pair.
  destruct (deq neg_infinity a && deq neg_infinity b); [done|].
  by destruct (dgt b a).
Qed.

Lemma dsub_neg_infinity x :
  is_nan x = false -> x <> neg_infinity -> dsub neg_infinity x = neg_infinity.
Proof. by destruct x as [|[]| |]. Qed.

Lemma dsub_infinity x :
  is_nan x = false -> x <> infinity -> dsub x infinity = neg_infinity.
Proof. by destruct x as [|[]| |]. Qed.

Lemma dgt_neg_infinity x :
  is_nan x = false -> x <> neg_infinity -> dgt x neg_infinity = true.
Proof. by destruct x as [|[]| |[]]. Qed.

Lemma dgt_infinity x :
  is_nan x = false -> x <> infinity -> dgt infinity x = true.
Proof. by destruct x as [|[]| |[]]. Qed.

Lemma not_dgt_neg_infinity x : dgt neg_infinity x = false.
Proof. by destruct x as [|[]| |[]]. Qed.

Lemma not_dgt_infinity x : dgt x infinity = false.
Proof. by destruct x as [|[]| |[]]. Qed.

Lemma dadd_zero x : x <> neg_zero -> dadd x zero = x.
Proof. intros Hx. by destruct x as [[]| | |]. Qed.

Section PairValue.
Context `{Libm} (Hlm : annex_f _).

(** [hi + log(1.0 + exp(-inf))] is [hi + 0.0]. *)
Lemma lse_pair_neg_infinity hi :
  dadd hi (log (dadd one (exp neg_infinity))) = dadd hi zero.
Proof.
  rewrite (exp_neg_infinity _ Hlm). change (dadd one zero) with one.
  by rewrite (log_one _ Hlm).
Qed.
End PairValue.

(** X11: negative infinity is neutral for [rc_logsumexp_pair].  With a C
    library that follows Annex F and [x] other than NaN,
    [rc_logsumexp_pair(x, -inf)] and [rc_logsumexp_pair(-inf, x)] return
    the same double, which compares equal to [x], and is [x] itself unless
    [x] is [-0.0] (then it is [+0.0]). *)
Theorem rc_logsumexp_pair_neg_infinity `{Libm} (x : double) (st : state) :
  annex_f _ -> is_nan x = false ->
  exists v,
    value (rc_logsumexp_pair x neg_infinity st) = Some v /\
    value (rc_logsumexp_pair neg_infinity x st) = Some v /\
    deq v x = true /\
    (x <> neg_zero -> v = x).
Proof.
  intros Hlm Hnan. rewrite !rc_logsumexp_pair_run.
  destruct (deq neg_infinity x) eqn:Hdeq.
  { apply deq_neg_infinity in Hdeq. subst x. by exists neg_infinity. }
  assert (Hinf : x <> neg_infinity).
  { intros ->. discriminate Hdeq. }
  rewrite andb_false_r. cbn [andb].
  rewrite not_dgt_neg_infinity, dgt_neg_infinity by done. cbn [value].
  rewrite dsub_neg_infinity, lse_pair_neg_infinity by done.
  exists (dadd x zero). split_and!; [done|done| |apply dadd_zero].
  destruct x as [[]|[]| |s m e]; try reflexivity; try discriminate Hnan.
  change (dadd (S754_finite s m e) zero) with (S754_finite s m e).
  by apply deq_refl.
Qed.

Lemma rc_logsumexp_pair_neg_infinity_witness :
  exists v,
    value (@rc_logsumexp_pair coarse_libm neg_zero neg_infinity (init [])) = Some v /\
    value (@rc_logsumexp_pair coarse_libm neg_infinity neg_zero (init [])) = Some v /\
    deq v neg_zero = true.
Proof.
  destruct (@rc_logsumexp_pair_neg_infinity coarse_libm neg_zero (init []))
    as (v & H1 & H2 & H3 & _); [apply coarse_libm_annex_f | reflexivity |].
  by exists v.
Defined.

(** X12: positive infinity absorbs.  With a C library that follows
    Annex F and [x] other than NaN and positive infinity,
    [rc_logsumexp_pair(+inf, x)] and [rc_logsumexp_pair(x, +inf)] return
    positive infinity. *)
Theorem rc_logsumexp_pair_infinity `{Libm} (x : double) (st : state) :
  annex_f _ -> is_nan x = false -> x <> infinity ->
  value (rc_logsumexp_pair infinity x st) = Some infinity /\
  value (rc_logsumexp_pair x infinity st) = Some infinity.
Proof.
  intros Hlm Hnan Hx. rewrite !rc_logsumexp_pair_run.
  change (deq neg_infinity infinity) with false.
  rewrite andb_false_r. cbn [andb].
  rewrite not_dgt_infinity, dgt_infinity by done. cbn [value].
  rewrite dsub_infinity, lse_pair_neg_infinity by done. done.
Qed.

Lemma rc_logsumexp_pair_infinity_witness :
  value (@rc_logsumexp_pair coarse_libm infinity (of_Z 5) (init [])) =
    Some infinity /\
  value (@rc_logsumexp_pair coarse_libm (of_Z 5) infinity (init [])) =
    Some infinity.
Proof.
  apply (@rc_logsumexp_pair_infinity coarse_libm);
    [apply coarse_libm_annex_f | reflexivity | discriminate].
Defined.

Lemma dadd_nan_l x : dadd nan x = nan.
Proof. by destruct x. Qed.

Lemma dsub_nan_l x : dsub nan x = nan.
Proof. by destruct x. Qed.

Lemma dsub_nan_r x : dsub x nan = nan.
Proof. by destruct x. Qed.

Lemma is_nan_nan x : is_nan x = true -> x = nan.
Proof. by destruct x. Qed.

Lemma not_dgt_nan_l x : dgt nan x = false.
Proof. by destruct x. Qed.

Lemma not_dgt_nan_r x : dgt x nan = false.
Proof. by destruct x. Qed.

(** X13: with a C library that returns NaN on NaN,
    [rc_logsumexp_pair] returns NaN as soon as one argument is a NaN, and
    also on two positive infinities, where it computes
    [exp(inf - inf)]. *)
Theorem rc_logsumexp_pair_nan `{Libm} (a b : double) (st : state) :
  exp nan = nan -> log nan = nan ->
  is_nan a = true \/ is_nan b = true \/ (a = infinity /\ b = infinity) ->
  value (rc_logsumexp_pair a b st) = Some nan.
Proof.
  intros Hexp Hlog Hab. rewrite rc_logsumexp_pair_run.
  assert (Hlse : forall hi,
    dadd hi (log (dadd one (exp nan))) = nan).
  { intros hi. rewrite Hexp. change (dadd one nan) with nan.
    by rewrite Hlog, dadd_nan_r. }
  destruct Hab as [->%is_nan_nan|[->%is_nan_nan|[-> ->]]].
  - cbn [deq andb]. change (deq neg_infinity nan) with false. cbn [andb].
    rewrite not_dgt_nan_r. cbn [value]. by rewrite dadd_nan_l.
  - change (deq neg_infinity nan) with false. rewrite andb_false_r.
    rewrite not_dgt_nan_l. cbn [value]. by rewrite dsub_nan_l, Hlse.
  - change (deq neg_infinity infinity) with false. cbn [andb].
    change (dgt infinity infinity) with false. cbn [value].
    change (dsub infinity infinity) with nan. by rewrite Hlse.
Qed.

Lemma rc_logsumexp_pair_nan_witness :
  value (@rc_logsumexp_pair coarse_libm infinity infinity (init [])) = Some nan.
Proof.
  apply (@rc_logsumexp_pair_nan coarse_libm);
    [reflexivity | reflexivity | right; right; split; reflexivity].
Defined.

(** X14: the agreement of C6 holds for infinite arguments too.  For [a]
    and [b] other than NaN, and a C library that follows Annex F,
    [rc_logsumexp_pair(a, b)] and [rc_logsumexp] on the array [a; b] return
    the same double. *)
Theorem rc_logsumexp_pair_array `{Libm}
    (a b : double) (st st2 : state) (fuel : nat) :
  annex_f _ -> is_nan a = false -> is_nan b = false ->
  mem st2 = [a; b] -> (6 <= fuel)%nat ->
  exists v,
    value (rc_logsumexp_pair a b st) = Some v /\
    value (rc_logsumexp fuel 2 st2) = Some v.
Proof.
  intros Hlm Hna Hnb Hmem Hfuel.
  destruct (rc_logsumexp_spec st2 2 fuel) as (v & st' & Hrun & Hperm & Hsorted & Hv);
    [by rewrite Hmem | lia | by vm_compute | rewrite Hmem; cbn [length]; lia |].
  rewrite Hrun, rc_logsumexp_pair_run. cbn [value]. exists v. split; [|done].
  rewrite Hmem in Hperm, Hsorted.
  specialize (Hsorted ltac:(by repeat constructor)).
  symmetry in Hperm. rewrite dgt_dlt.
  apply Permutation_length_2_inv in Hperm as [Hs|Hs]; rewrite Hs in Hv, Hsorted;
    apply StronglySorted_cons in Hsorted as [[Hle _]%Forall_cons _];
    change (2 - 1) with 1 in Hv; change (Z.to_nat 1) with 1%nat in Hv;
    cbn [take] in Hv.
  - change (get [a; b] 1) with b in Hv.
    destruct (deq neg_infinity b) eqn:Hb.
    + apply deq_neg_infinity in Hb. subst b.
      apply dle_neg_infinity in Hle. subst a. by destruct Hv as [-> _].
    + rewrite andb_false_r. destruct Hv as [-> _].
      unfold lse_value. cbn [fold_left value]. unfold lse_add.
      rewrite lse_pair_value by done.
      destruct (dlt a b) eqn:Hab; [done|]. f_equal.
      apply not_dlt_dle in Hab; [|done..].
      destruct (dle_antisym _ _ Hle Hab) as [->|(s & s' & -> & ->)]; [done|].
      by rewrite !lse_zeros_value.
  - change (get [b; a] 1) with a in Hv.
    destruct (deq neg_infinity a) eqn:Ha.
    + apply deq_neg_infinity in Ha. subst a.
      apply dle_neg_infinity in Hle. subst b. by destruct Hv as [-> _].
    + cbn [andb]. destruct Hv as [-> _].
      unfold lse_value. cbn [fold_left value]. unfold lse_add.
      rewrite lse_pair_value by done.
      by rewrite (dle_not_dlt _ _ Hle).
Qed.

Lemma rc_logsumexp_pair_array_witness :
  exists v,
    value (@rc_logsumexp_pair coarse_libm infinity neg_infinity (init [])) = Some v /\
    value (@rc_logsumexp coarse_libm 6 2 (init [infinity; neg_infinity])) = Some v.
Proof.
  apply (@rc_logsumexp_pair_array coarse_libm);
    [apply coarse_libm_annex_f | reflexivity | reflexivity | reflexivity | lia].
Defined.

(** ** The arguments of exp

    [rc_logsumexp] and [rc_logsumexp_pair] subtract the maximum before
    they call [exp]: on binary64 numbers no argument of [exp] is positive,
    so that [exp] cannot overflow.  This needs the canonical form of
    binary64 numbers: on other pairs of mantissa and exponent the
    comparison of [SFcompare], by exponent first, is not the order of the
    values. *)

Lemma digits2_pos_bounds (m : positive) :
  2 ^ (Z.pos (digits2_pos m) - 1) <= Z.pos m < 2 ^ Z.pos (digits2_pos m).
Proof.
  induction m as [m IH|m IH|]; cbn [digits2_pos]; [| |by cbn].
  - rewrite Pos2Z.inj_succ, Z.pow_succ_r by lia.
    replace (Z.succ (Z.pos (digits2_pos m)) - 1)
      with (Z.succ (Z.pos (digits2_pos m) - 1)) by lia.
    rewrite Z.pow_succ_r by lia. lia.
  - rewrite Pos2Z.inj_succ, Z.pow_succ_r by lia.
    replace (Z.succ (Z.pos (digits2_pos m)) - 1)
      with (Z.succ (Z.pos (digits2_pos m) - 1)) by lia.
    rewrite Z.pow_succ_r by lia. lia.
Qed.

Lemma iter_xO_value (m d : positive) :
  Z.pos (Pos.iter xO m d) = Z.pos m * 2 ^ Z.pos d.
Proof.
  induction d as [|d IH] using Pos.peano_ind.
  - cbn [Pos.iter]. lia.
  - rewrite Pos.iter_succ, Pos2Z.inj_succ, Z.pow_succ_r by lia.
    rewrite Pos2Z.inj_xO, IH. lia.
Qed.

Lemma shl_align_value (m : positive) (e e' : Z) :
  e' <= e -> Z.pos (fst (shl_align m e e')) = Z.pos m * 2 ^ (e - e').
Proof.
  intros He. unfold shl_align.
  destruct (e' - e) as [|d|d] eqn:Hd; try lia; cbn [fst].
  - replace (e - e') with 0 by lia. lia.
  - rewrite iter_xO_value. do 2 f_equal. lia.
Qed.

(** The mantissa of a binary64 number has at most 53 bits, and exactly
    53 above the least exponent. *)
Lemma bounded_mantissa (m : positive) (e : Z) :
  bounded prec emax m e = true ->
  -1074 <= e /\ Z.pos m < 2 ^ 53 /\ (-1074 < e -> 2 ^ 52 <= Z.pos m).
Proof.
  unfold bounded, canonical_mantissa, fexp, emin, prec, emax.
  intros [Hc _]%andb_true_iff. apply Z.eqb_eq in Hc.
  pose proof (digits2_pos_bounds m) as [Hlo Hhi].
  split_and!; [lia| |].
  - eapply Z.lt_le_trans; [exact Hhi|]. apply Z.pow_le_mono_r; lia.
  - intros He. replace 52 with (Z.pos (digits2_pos m) - 1) by lia. done.
Qed.

(** Binary64 numbers of the same sign are ordered as their exponents are,
    then as their mantissas. *)
Lemma aligned_le (mx : positive) (ex : Z) (my : positive) (ey : Z) :
  bounded prec emax mx ex = true -> bounded prec emax my ey = true ->
  ex < ey \/ (ex = ey /\ (mx <= my)%positive) ->
  Z.pos (fst (shl_align mx ex (Z.min ex ey))) <=
  Z.pos (fst (shl_align my ey (Z.min ex ey))).
Proof.
  intros Hx Hy Hcmp. rewrite !shl_align_value by lia.
  apply bounded_mantissa in Hx as (Hex & Hmx & _).
  apply bounded_mantissa in Hy as (_ & _ & Hmy).
  destruct Hcmp as [Hlt|[-> Hle]].
  - rewrite Z.min_l by lia. rewrite Z.sub_diag, Z.pow_0_r.
    specialize (Hmy ltac:(lia)).
    assert (2 ^ 1 <= 2 ^ (ey - ex)) by (apply Z.pow_le_mono_r; lia).
    nia.
  - rewrite Z.min_id, Z.sub_diag, Z.pow_0_r. lia.
Qed.

Lemma binary_normalize_nonpos (m e : Z) :
  m <= 0 -> dgt (binary_normalize prec emax m e false) zero = false.
Proof.
  intros Hm. destruct m as [|m|m]; [done|lia|].
  unfold binary_normalize, binary_round, binary_round_aux.
  destruct (shl_align _ _ _) as [mz ez].
  destruct (shr_fexp _ _ _ _ _) as [mrs' e'].
  destruct (shr_fexp _ _ _ _ _) as [mrs'' e''].
  destruct (shr_m mrs'') as [|m'|m']; [done| |done].
  by destruct (e'' <=? emax - prec).
Qed.

Lemma compare_cont_le (m1 m2 : positive) :
  Pos.compare_cont Eq m1 m2 <> Gt -> (m1 <= m2)%positive.
Proof. intros Hc. unfold Pos.le, Pos.compare. done. Qed.

Lemma compare_cont_ge (m1 m2 : positive) :
  Pos.compare_cont Eq m1 m2 <> Lt -> (m2 <= m1)%positive.
Proof.
  intros Hc. apply Pos.ge_le. unfold Pos.ge, Pos.compare. done.
Qed.

(** The difference of two binary64 numbers, the first no greater than
    the second, is not positive. *)
Lemma dsub_nonpos (x y : double) :
  binary64 x = true -> binary64 y = true -> dle x y = true ->
  dgt (dsub x y) zero = false.
Proof.
  destruct x as [sx|sx| |sx mx ex], y as [sy|sy| |sy my ey];
    try (destruct sx); try (destruct sy); try done.
  all: unfold binary64, valid_binary; intros Hx Hy Hle.
  all: unfold dsub, SFsub; apply binary_normalize_nonpos.
  all: unfold dle, SFleb, SFcompare in Hle; cbn [cond_Zopp].
  - (* both negative *)
    enough (Z.pos (fst (shl_align my ey (Z.min ex ey))) <=
            Z.pos (fst (shl_align mx ex (Z.min ex ey)))) by lia.
    rewrite (Z.min_comm ex ey). apply aligned_le; try done.
    destruct (Z.compare_spec ex ey) as [->|Hlt|Hgt]; [right|done|left; lia].
    split; [done|]. apply compare_cont_ge.
    by destruct (Pos.compare_cont Eq mx my).
  - lia.
  - (* both positive *)
    enough (Z.pos (fst (shl_align mx ex (Z.min ex ey))) <=
            Z.pos (fst (shl_align my ey (Z.min ex ey)))) by lia.
    apply aligned_le; try done.
    destruct (Z.compare_spec ex ey) as [->|Hlt|Hgt]; [right|left; lia|done].
    split; [done|]. apply compare_cont_le.
    by destruct (Pos.compare_cont Eq mx my).
Qed.




(** X16: [rc_logsumexp_pair] on binary64 arguments, NaN included, ends
    with the array untouched, and its call of [exp], if it makes one, has
    an argument that is not greater than zero. *)
Theorem rc_logsumexp_pair_exp_argument `{Libm} (a b : double) (st : state) :
  binary64 a = true -> binary64 b = true ->
  exists v st' cs,
    rc_logsumexp_pair a b st = Ok v st' /\
    mem st' = mem st /\
    calls (trace st') = calls (trace st) ++ cs /\
    forall x, CallExp x ∈ cs -> dgt x zero = false.
Proof.
  intros Ha Hb. rewrite rc_logsumexp_pair_run.
  destruct (deq neg_infinity a && deq neg_infinity b).
  { exists neg_infinity, st, []. rewrite app_nil_r. split_and!; try done.
    intros x Hx. by apply elem_of_nil in Hx. }
  eexists _, _, _. split_and!; [done|done| |].
  { cbn [trace]. rewrite calls_call, calls_call by done.
    rewrite <- app_assoc. done. }
  cbn [app]. intros x Hx.
  apply elem_of_cons in Hx as [[= ->]|Hx];
    [|by apply list_elem_of_singleton in Hx].
  rewrite (dgt_dlt b a). destruct (dlt a b) eqn:Hab.
  - apply dsub_nonpos; [done|done|]. by apply dlt_dle.
  - destruct (is_nan a) eqn:Hna.
    { apply is_nan_nan in Hna. subst a. by rewrite dsub_nan_r. }
    destruct (is_nan b) eqn:Hnb.
    { apply is_nan_nan in Hnb. subst b. by rewrite dsub_nan_l. }
    apply dsub_nonpos; [done|done|]. by apply not_dlt_dle.
Qed.

Lemma rc_logsumexp_pair_exp_argument_witness :
  exists v st' cs,
    @rc_logsumexp_pair coarse_libm (of_Z 5) (of_Z 2) (init []) = Ok v st' /\
    mem st' = [] /\
    calls (trace st') = [] ++ cs /\
    forall x, CallExp x ∈ cs -> dgt x zero = false.
Proof.
  apply (@rc_logsumexp_pair_exp_argument coarse_libm (of_Z 5) (of_Z 2) (init []));
    reflexivity.
Defined.

Section NanPropagation.
Context `{Libm} (Hexp : exp nan = nan) (Hlog : log nan = nan).



End NanPropagation.



(** X18: up to 26 cells, whatever they hold, [rc_logsumexp] is
    insertion sort followed by the summation: it leaves the array [s]
    that [insertion_sort] makes of the input and returns negative infinity
    when [s[N-1]] is negative infinity, and [s[N-1] + log(sum + 1.0)]
    otherwise, with [sum] over the first [N - 1] elements of [s]. *)
Theorem rc_logsumexp_small `{Libm} (st : state) (N : Z) (fuel : nat) :
  N = len (mem st) -> 1 <= N -> N <= 26 ->
  (2 * Z.to_nat N + 2 <= fuel)%nat ->
  let s := insertion_sort (mem st) in
  let mx := get s (N - 1) in
  exists st',
    rc_logsumexp fuel N st =
      Ok (if deq neg_infinity mx then neg_infinity
          else lse_value (take (Z.to_nat (N - 1)) s) mx) st' /\
    mem st' = s.
Proof.
  intros HN HN1 Hsmall Hfuel. cbn zeta.
  destruct (rc_logsumexp_prefix_spec (mem st) [] st N fuel)
    as (v & st' & Hrun & s & Hmem & _ & _ & Hins & _ & Hv);
    rewrite ?app_nil_r; try done; try lia.
  { unfold int_max. lia. }
  rewrite app_nil_r in Hmem. specialize (Hins Hsmall). subst s.
  exists st'. split; [|done]. rewrite Hrun, <- Hins. f_equal.
  destruct (deq neg_infinity _); by destruct Hv.
Qed.

Lemma rc_logsumexp_small_witness :
  exists st',
    @rc_logsumexp coarse_libm 6 2 (init [nan; neg_infinity]) =
      Ok neg_infinity st' /\
    mem st' = [nan; neg_infinity].
Proof.
  apply (@rc_logsumexp_small coarse_libm (init [nan; neg_infinity]) 2 6);
    [reflexivity | lia | lia | by vm_compute].
Defined.
